(** * diff_heu_heu: the graph-diff engine of the heuristics-net comparer

    A shallow embedding of [diff_heu_heu.py] (the identity resolver, the
    set-diff engine, the canonicalizer and the diff renderer) together with
    the properties the specification states about them.

    Conventions of the embedding.
    - A Python [dict] is an insertion-ordered association list: iteration
      visits the keys in insertion order, an assignment to an existing key
      keeps the key's position, an assignment to a fresh key appends.  The
      order is kept because the loops of the program iterate over dicts and
      because one property is about independence from that order.
    - A Python [set] is a [gset]; [list(s)] enumerates it with [elements].
      Python leaves that order unspecified, so the properties below speak
      about membership, duplicates and permutations only.
    - An edge is a 2-tuple of node names: [edge[0]] and [edge[1]] are the
      projections, iterating over it yields both names.
    - A call that may raise returns in the error monad [result]; the calls
      that write (print, render) thread the state of the outside world.
    - The built-ins [float], [-] on floats and [round(_, 3)] come from an
      interface [PyFloatOps]; [binary64_ops] implements it on IEEE 754
      binary64 numbers for ASCII text. *)

From Stdlib Require Import ZArith String Ascii List SpecFloat.
From stdpp Require Import base list strings gmap.

Local Open Scope string_scope.
Local Open Scope list_scope.

#[local] Set Warnings "-clear-no-such-hyp".

(** ** Exceptions and the error monad *)

Inductive exn : Type :=
  | ValueError   (* float() applied to a string that is not a number *)
  | KeyError     (* d[k] on an absent key *)
  | RenderError. (* dot.render could not write the diagram *)

Definition result (A : Type) : Type := exn + A.

Definition raise {A} (e : exn) : result A := inl e.
Definition ret {A} (a : A) : result A := inr a.

Definition rbind {A B} (m : result A) (k : A → result B) : result B :=
  match m with
  | inl e => inl e
  | inr a => k a
  end.

Notation "'try' x <- m 'in' k" := (rbind m (fun x => k))
  (at level 10, x pattern, m at level 100, k at level 200).

(** ** Python strings *)

Definition space : ascii := " "%char.

(** [s.split(' ')[0]]: the text before the first space (all of [s] when it
    has none, the empty string when [s] starts with a space). *)
Fixpoint first_token (s : string) : string :=
  match s with
  | EmptyString => EmptyString
  | String c rest => if Ascii.eqb c space then EmptyString else String c (first_token rest)
  end.

(** ** Python dictionaries *)

Abbreviation dict K V := (list (K * V)).

Section Dict.
Context {K V : Type} `{EqDecision K}.

(** [d.get(k)], [None] on a miss. *)
Fixpoint dict_get (k : K) (d : dict K V) : option V :=
  match d with
  | [] => None
  | (k', v) :: rest => if decide (k = k') then Some v else dict_get k rest
  end.

(** [d.get(k, dflt)] *)
Definition dict_get_default (k : K) (dflt : V) (d : dict K V) : V :=
  default dflt (dict_get k d).

(** [d[k]] *)
Definition dict_item (k : K) (d : dict K V) : result V :=
  match dict_get k d with
  | Some v => ret v
  | None => raise KeyError
  end.

(** [k in d] *)
Definition dict_mem (k : K) (d : dict K V) : bool :=
  bool_decide (is_Some (dict_get k d)).

(** [d[k] = v] *)
Fixpoint dict_set (k : K) (v : V) (d : dict K V) : dict K V :=
  match d with
  | [] => [(k, v)]
  | (k', v') :: rest =>
      if decide (k = k') then (k', v) :: rest else (k', v') :: dict_set k v rest
  end.

(** [list(d)], the keys in iteration order *)
Definition dict_keys (d : dict K V) : list K := d.*1.

(** [dict(pairs)] and the dict comprehension [{k: v for k, v in pairs}] *)
Definition dict_of_pairs (ps : list (K * V)) : dict K V :=
  foldl (λ acc kv, dict_set kv.1 kv.2 acc) [] ps.

(** Every dict a Python program holds has pairwise distinct keys. *)
Definition dict_wf (d : dict K V) : Prop := NoDup (dict_keys d).
End Dict.

(** ** Python floats

    What [diff] needs from the number tower: the conversion [float(s)] of a
    string (which raises ValueError, here [None]), the difference of two
    floats and [round(x, 3)]. *)

Class PyFloatOps : Type := {
  pyfloat : Type;
  float : string → option pyfloat;
  float_sub : pyfloat → pyfloat → pyfloat;
  round3 : pyfloat → pyfloat
}.

(** *** The binary64 implementation

    Python floats are IEEE 754 binary64 numbers ([spec_float] with precision
    53 and maximal exponent 1024).  The text given to [float] is read as
    ASCII: white space and digits outside ASCII, which Python also accepts,
    are not recognised here. *)

Module Binary64.
Local Open Scope Z_scope.

Definition prec : Z := 53.
Definition emax : Z := 1024.

(** The double nearest (ties to even) to [n * 10^e10], with sign [neg];
    [n] is a natural number.  Overflow gives an infinity, underflow a
    zero, as strtod does. *)
Definition of_decimal (neg : bool) (n : Z) (e10 : Z) : spec_float :=
  match n with
  | Zpos m =>
      if 0 <=? e10
      then binary_round prec emax neg (Z.to_pos (Z.pos m * 10 ^ e10)) 0
      else SFdiv prec emax (S754_finite neg m 0)
                           (S754_finite false (Z.to_pos (10 ^ (- e10))) 0)
  | _ => S754_zero neg
  end.

(** [x - y] *)
Definition sub (x y : spec_float) : spec_float := SFsub prec emax x y.

(** The integer nearest to [m * 2^e * 10^3], ties to even. *)
Definition scaled_half_even (m : positive) (e : Z) : Z :=
  if 0 <=? e then Z.pos m * 2 ^ e * 1000
  else
    let d := 2 ^ (- e) in
    let q := (Z.pos m * 1000) / d in
    let r := (Z.pos m * 1000) mod d in
    match (2 * r) ?= d with
    | Lt => q
    | Gt => q + 1
    | Eq => if Z.even q then q else q + 1
    end.

(** [round(x, 3)]: the exact value of [x] is rounded half-even to three
    decimals, and the decimal obtained is converted back to the nearest
    double; nan and the infinities round to themselves. *)
Definition round_3 (x : spec_float) : spec_float :=
  match x with
  | S754_finite s m e => of_decimal s (scaled_half_even m e) (-3)
  | _ => x
  end.

(** **** [float(s)] for a string *)

Definition is_space (c : ascii) : bool :=
  let n := nat_of_ascii c in
  ((9 <=? n)%nat && (n <=? 13)%nat) || ((28 <=? n)%nat && (n <=? 32)%nat).

Definition is_digit (c : ascii) : bool :=
  let n := nat_of_ascii c in (48 <=? n)%nat && (n <=? 57)%nat.

Definition digit_val (c : ascii) : Z := Z.of_nat (nat_of_ascii c) - 48.

Definition digits_val (ds : list ascii) : Z :=
  fold_left (λ acc c, 10 * acc + digit_val c) ds 0.

Definition lower (c : ascii) : ascii :=
  let n := nat_of_ascii c in
  if ((65 <=? n)%nat && (n <=? 90)%nat)%bool then ascii_of_nat (n + 32) else c.

Fixpoint drop_spaces (l : list ascii) : list ascii :=
  match l with
  | c :: rest => if is_space c then drop_spaces rest else l
  | [] => []
  end.

Definition strip (l : list ascii) : list ascii :=
  rev (drop_spaces (rev (drop_spaces l))).

(** An underscore may only stand between two digits; the underscores are
    removed. *)
Fixpoint remove_underscores (prev : ascii) (l : list ascii) : option (list ascii) :=
  match l with
  | [] => if Ascii.eqb prev "_" then None else Some []
  | c :: rest =>
      if Ascii.eqb c "_" then
        if is_digit prev then remove_underscores c rest else None
      else if (Ascii.eqb prev "_" && negb (is_digit c))%bool then None
      else cons c <$> remove_underscores c rest
  end.

(** The longest prefix of digits, and what follows it. *)
Fixpoint span_digits (l : list ascii) : list ascii * list ascii :=
  match l with
  | c :: rest =>
      if is_digit c then let '(ds, tl) := span_digits rest in (c :: ds, tl)
      else ([], l)
  | [] => ([], [])
  end.

Definition split_sign (l : list ascii) : bool * list ascii :=
  match l with
  | "-"%char :: rest => (true, rest)
  | "+"%char :: rest => (false, rest)
  | _ => (false, l)
  end.

(** [e], an optional sign and at least one digit, up to the end of the
    text; no exponent part at all counts as exponent 0. *)
Definition parse_exponent (l : list ascii) : option Z :=
  match l with
  | [] => Some 0
  | c :: rest =>
      if Ascii.eqb (lower c) "e" then
        let '(neg, rest') := split_sign rest in
        match span_digits rest' with
        | ((_ :: _) as ds, []) => Some (if neg then - digits_val ds else digits_val ds)
        | _ => None
        end
      else None
  end.

(** digits [. digits] [exponent], with a digit before or after the point *)
Definition parse_decimal (neg : bool) (l : list ascii) : option spec_float :=
  let '(ip, rest) := span_digits l in
  let '(fp, rest') :=
    match rest with
    | "."%char :: r => span_digits r
    | _ => ([], rest)
    end in
  match ip ++ fp with
  | [] => None
  | ds =>
      e ← parse_exponent rest';
      Some (of_decimal neg (digits_val ds) (e - Z.of_nat (length fp)))
  end.

Definition parse_inf_or_nan (neg : bool) (l : list ascii) : option spec_float :=
  let w := string_of_list_ascii (map lower l) in
  if decide (w = "inf" ∨ w = "infinity") then Some (S754_infinity neg)
  else if decide (w = "nan") then Some S754_nan
  else None.

Definition of_string (s : string) : option spec_float :=
  l ← remove_underscores "000"%char (strip (list_ascii_of_string s));
  let '(neg, body) := split_sign l in
  match parse_decimal neg body with
  | Some x => Some x
  | None => parse_inf_or_nan neg body
  end.
End Binary64.

#[export] Instance binary64_ops : PyFloatOps := {|
  pyfloat := spec_float;
  float := Binary64.of_string;
  float_sub := Binary64.sub;
  round3 := Binary64.round_3
|}.

(** ** The program *)

(** An edge, and a key of a directly-follows map: [(origin, destination)]. *)
Definition edge : Type := string * string.

(** The statuses ['ok'], ['missing'] and ['extra'] of [dfg_result]. *)
Inductive status : Type := ok | missing | extra.

#[export] Instance status_eq_dec : EqDecision status.
Proof. solve_decision. Defined.

(** A [for] loop whose body may raise: the first exception ends the loop. *)
Fixpoint for_each {A S} (body : S → A → result S) (xs : list A) (s : S) : result S :=
  match xs with
  | [] => ret s
  | x :: rest => try s' <- body s x in for_each body rest s'
  end.

(** *** Identity resolver *)

Definition match_binary_names_labels
    (edges_origin_dest : list edge) (binary_names labels : list string) : list edge :=
  let labels_names_inv := dict_of_pairs (zip binary_names (first_token <$> labels)) in
  (λ e : edge,
     let origin := dict_get_default e.1 e.1 labels_names_inv in
     let destination := dict_get_default e.2 e.2 labels_names_inv in
     (origin, destination)) <$> edges_origin_dest.

(** *** Set-diff engine *)

(** The items of the tuples of a list, in order. *)
Definition flatten (edges : list edge) : list string :=
  e ← edges; [e.1; e.2].

Definition unique_el (edges_origin_dest_labels : list edge) : list string :=
  elements (list_to_set (C := gset string) (flatten edges_origin_dest_labels)).

(** The dictionary [{'green': ..., 'red': ...}]. *)
Record dict_diff (T : Type) : Type := { green : list T; red : list T }.
Arguments green {T} _.
Arguments red {T} _.

Definition create_dict_diff `{Countable T} (list1 list2 : list T) : dict_diff T :=
  let red_values : gset T := list_to_set list1 ∖ list_to_set list2 in
  let green_values : gset T := list_to_set list2 ∖ list_to_set list1 in
  {| green := elements green_values; red := elements red_values |}.

Definition create_dict_diff_edges (list1 list2 : list edge) : dict_diff edge :=
  let set1 : gset edge := list_to_set list1 in
  let set2 : gset edge := list_to_set list2 in
  let red_values := set1 ∖ set2 in
  let green_values := set2 ∖ set1 in
  {| green := elements green_values; red := elements red_values |}.

(** The placeholder weight ['-']. *)
Definition placeholder : string := "-".

Definition from_list_edges_to_dict (edges_origin_dest_labels : list edge) : dict edge string :=
  foldl (λ list_activity_labels e,
           dict_set (first_token e.1, first_token e.2) placeholder list_activity_labels)
        [] edges_origin_dest_labels.

(** A value of [dfg_result_new]: a rounded difference, or ['']. *)
Inductive delta_of_type (F : Type) : Type :=
  | DeltaNum (count : F)
  | DeltaEmpty.
Arguments DeltaNum {F} count.
Arguments DeltaEmpty {F}.

Abbreviation delta := (delta_of_type pyfloat).

Section Diff.
Context `{PyFloatOps} {K : Type} `{EqDecision K}.

(** [float(s)] *)
Definition to_float (s : string) : result pyfloat :=
  match float s with
  | Some x => ret x
  | None => raise ValueError
  end.

(** The body of the loop [for edge in dfg_old]. *)
Definition diff_old_step (dfg_old dfg_new : dict K string)
    (acc : dict K status * dict K delta) (edge : K)
    : result (dict K status * dict K delta) :=
  let '(dfg_result, dfg_result_new) := acc in
  if dict_mem edge dfg_new then
    let dfg_result := dict_set edge ok dfg_result in
    try vo <- dict_item edge dfg_old in
    if decide (vo ≠ placeholder) then
      try a <- to_float vo in
      try vn <- dict_item edge dfg_new in
      try b <- to_float vn in
      let count := round3 (float_sub a b) in
      ret (dfg_result, dict_set edge (DeltaNum count) dfg_result_new)
    else ret (dfg_result, dfg_result_new)
  else
    ret (dict_set edge missing dfg_result, dict_set edge DeltaEmpty dfg_result_new).

(** The body of the loop [for edge in dfg_new]. *)
Definition diff_new_step (dfg_old : dict K string)
    (dfg_result : dict K status) (edge : K) : dict K status :=
  if negb (dict_mem edge dfg_old) then dict_set edge extra dfg_result else dfg_result.

Definition diff (dfg_old dfg_new : dict K string)
    : result (dict K status * dict K delta) :=
  try acc <- for_each (diff_old_step dfg_old dfg_new) (dict_keys dfg_old) ([], []) in
  let '(dfg_result, dfg_result_new) := acc in
  ret (foldl (diff_new_step dfg_old) dfg_result (dict_keys dfg_new), dfg_result_new).
End Diff.

(** *** Canonicalizer *)

Definition canon_item (item : string) : string :=
  if decide (item = "@@S") then "Start"
  else if decide (item = "@@E") then "End"
  else item.

(** [{f(key): value for key, value in d.items()}] *)
Definition rekey {K V} `{EqDecision K} (f : K → K) (d : dict K V) : dict K V :=
  dict_of_pairs ((λ kv, (f kv.1, kv.2)) <$> d).

(** [tuple(... for item in key)] on a 2-tuple, and on a tuple of any length *)
Definition canon_edge (key : edge) : edge := (canon_item key.1, canon_item key.2).
Definition canon_tuple (key : list string) : list string := canon_item <$> key.

Definition modifica_dfg_result {V} (dfg_result : dict edge V) : dict edge V :=
  rekey canon_edge dfg_result.

(** The same function on keys that are tuples of any length. *)
Definition modifica_dfg_result_tuple {V} (dfg_result : dict (list string) V)
    : dict (list string) V :=
  rekey canon_tuple dfg_result.

(** *** Filter *)

Definition imp_edges_modified {K} `{EqDecision K} (diff_dict : dict K status) : dict K status :=
  foldl (λ new_dfg_diff kv, if decide (kv.2 ≠ ok) then dict_set kv.1 kv.2 new_dfg_diff
                            else new_dfg_diff)
        [] diff_dict.

(** *** Diff renderer *)

(** What [graphviz.Digraph] accumulates: the statements emitted by
    [dot.node] and [dot.edge], in call order, and the graph attributes. *)
Inductive stmt : Type :=
  | Node (name : string) (attrs : dict string string)
  | Edge (tail_name head_name : string) (attrs : dict string string).

Record Digraph : Type := {
  graph_name : string;
  body : list stmt;
  graph_attr : dict string string
}.

Definition is_node (s : stmt) : bool := if s is Node _ _ then true else false.
Definition is_edge (s : stmt) : bool := if s is Edge _ _ _ then true else false.

Definition nodes_of (g : Digraph) : list stmt := filter is_node (body g).
Definition edges_of (g : Digraph) : list stmt := filter is_edge (body g).

Definition common_node_attributes : dict string string :=
  [("fillcolor", "#33CBCB"); ("fontcolor", "black"); ("shape", "box");
   ("style", "filled"); ("width", "1.4514"); ("height", "0.5")].

(** The border colours of added and removed nodes; added ones, and the edges
    that touch them, are drawn in the blue [#0d79ec]. *)
Definition blue : string := "#0d79ec".
Definition node_red : string := "#ec555b".

Definition no_differences : string :=
  "There are no differences between the formal model and the simulated one!".

(** The attributes of the node [a] (the body of [for a in unique_keys]). *)
Definition node_attributes_of (dict_diff_nodes : dict_diff string) (a : string)
    : dict string string :=
  let node_attributes := common_node_attributes in
  if decide (a = "Start") then
    dict_set "label" "" (dict_set "width" "0.75" (dict_set "shape" "circle"
      (dict_set "fillcolor" "#32CD32" node_attributes)))
  else if decide (a = "End") then
    dict_set "color" "#FFFFFF" (dict_set "label" "" (dict_set "width" "0.75"
      (dict_set "shape" "circle" (dict_set "fillcolor" "#FFA500" node_attributes))))
  else if bool_decide (a ∈ green dict_diff_nodes) then
    dict_set "penwidth" "2" (dict_set "color" blue
      (dict_set "fillcolor" "white" node_attributes))
  else if bool_decide (a ∈ red dict_diff_nodes) then
    dict_set "penwidth" "2" (dict_set "color" node_red
      (dict_set "fillcolor" "white" node_attributes))
  else dict_set "fillcolor" "white" node_attributes.

(** The body of [for key in dfg_diff]: colour and style of the edge [key]. *)
Definition edge_attributes_of (dfg_diff : dict edge status)
    (dict_diff_nodes : dict_diff string) (key : edge) : result (dict string string) :=
  try cs <-
    (if bool_decide (key.1 ∈ green dict_diff_nodes)
        || bool_decide (key.2 ∈ green dict_diff_nodes)
     then ret (blue, "solid")
     else
       try st <- dict_item key dfg_diff in
       ret (if decide (st = ok) then "black" else "red", "solid")) in
  ret [("color", cs.1); ("style", cs.2); ("label", "")].

(** The graph [draw_diff] builds before it renders it (lines up to the
    [dot.render] call). *)
Definition draw_diff_graph (dfg_diff : dict edge status)
    (dict_diff_nodes : dict_diff string) (name : string) : result Digraph :=
  let unique_keys : gset string := list_to_set (flatten (dict_keys dfg_diff)) in
  let body1 := (λ a, Node a (node_attributes_of dict_diff_nodes a)) <$> elements unique_keys in
  try body2 <-
    for_each (λ stmts key,
                try attrs <- edge_attributes_of dfg_diff dict_diff_nodes key in
                ret (stmts ++ [Edge key.1 key.2 attrs]))
             (dict_keys dfg_diff) body1 in
  let graph_attr := dict_set "size" "100,100" (dict_set "ratio" "auto" []) in
  let body3 :=
    if decide (length dfg_diff = 0) then body2 ++ [Node no_differences [("color", "white")]]
    else body2 in
  ret {| graph_name := name; body := body3; graph_attr := graph_attr |}.

(** *** The outside world

    [dot.render(filename=name, format='pdf', cleanup=True)] hands the graph
    to Graphviz, which writes [name.pdf]; whether that works is decided
    outside the program.  [render] says whether the call returned ([true])
    or raised, and what the world looks like afterwards. *)
Class Outside : Type := {
  world : Type;
  render : Digraph → string → world → bool * world
}.

Section Effects.
Context `{Outside}.

(** The state the program runs in: the world, what was printed, and the
    render calls made so far, oldest first. *)
Record state : Type := {
  env : world;
  stdout : list string;
  render_calls : list (string * Digraph)
}.

Definition M (A : Type) : Type := state → result A * state.

Definition mreturn {A} (a : A) : M A := λ s, (ret a, s).

Definition mbind_ {A B} (m : M A) (k : A → M B) : M B :=
  λ s, match m s with
       | (inl e, s') => (inl e, s')
       | (inr a, s') => k a s'
       end.

Definition lift {A} (r : result A) : M A := λ s, (r, s).

Definition print (line : string) : M unit :=
  λ s, (ret (), {| env := env s; stdout := stdout s ++ [line];
                   render_calls := render_calls s |}).

Definition dot_render (dot : Digraph) (name : string) : M unit :=
  λ s, let '(done, w) := render dot name (env s) in
       (if done then ret () else raise RenderError,
        {| env := w; stdout := stdout s;
           render_calls := render_calls s ++ [(name, dot)] |}).
End Effects.

Notation "'run' x <- m 'in' k" := (mbind_ m (λ x, k))
  (at level 10, x pattern, m at level 100, k at level 200).

Section Pipeline.
Context `{Outside}.

Definition draw_diff (dfg_diff : dict edge status)
    (dict_diff_nodes : dict_diff string) (name : string) : M Digraph :=
  run dot <- lift (draw_diff_graph dfg_diff dict_diff_nodes name) in
  run _ <- dot_render dot name in
  run _ <- print ("Graph saved as " +:+ name +:+ ".pdf") in
  mreturn dot.

(** What [parse_dot_string] returns of one model and [main] uses. *)
Record parsed : Type := {
  edges_origin_dest : list edge;
  labels : list string;
  binary_names : list string
}.

(** [main], from the two parsed DOT strings on: the steps before (reading
    the logs, mining, producing and parsing the DOT text) are calls into
    pandas, pm4py and pygraphviz. *)
Definition main `{PyFloatOps} (old new : parsed)
    (output_full output_filtered_full : string) : M unit :=
  run _ <- print "Matching binary names to original names..." in
  let edges_origin_dest_labels_new :=
    match_binary_names_labels (edges_origin_dest new) (binary_names new) (labels new) in
  let edges_origin_dest_labels_old :=
    match_binary_names_labels (edges_origin_dest old) (binary_names old) (labels old) in
  run _ <- print "Identifying unique elements..." in
  let unique_elements_old := unique_el edges_origin_dest_labels_old in
  let unique_elements_new := unique_el edges_origin_dest_labels_new in
  run _ <- print "Creating difference dictionaries..." in
  let dict_diff_nodes := create_dict_diff unique_elements_old unique_elements_new in
  let dict_diff_edges :=
    create_dict_diff_edges edges_origin_dest_labels_old edges_origin_dest_labels_new in
  run _ <- print "Converting edge lists to dictionaries..." in
  let list_activity_labels_new := from_list_edges_to_dict edges_origin_dest_labels_new in
  let list_activity_labels_old := from_list_edges_to_dict edges_origin_dest_labels_old in
  run _ <- print "Calculating differences between DFGs..." in
  run res <- lift (diff list_activity_labels_old list_activity_labels_new) in
  let '(dfg_result, dfg_result_new) := res in
  run _ <- print "Modifying DFG results..." in
  let dfg_result_modified := modifica_dfg_result dfg_result in
  run _ <- print "Drawing differences..." in
  run _ <- draw_diff dfg_result_modified dict_diff_nodes output_full in
  run _ <- print "Filtering differences..." in
  let dfg_result_modified_filtered := imp_edges_modified dfg_result_modified in
  run _ <- draw_diff dfg_result_modified_filtered dict_diff_nodes output_filtered_full in
  print "Process completed.".
End Pipeline.

(** A sample world: a disk holding the diagrams written so far, on which
    nothing can be written under [/proc/]. *)
Definition writable (name : string) : bool := negb (String.prefix "/proc/" name).

#[export] Instance sample_disk : Outside := {|
  world := dict string Digraph;
  render dot name disk :=
    if writable name then (true, dict_set (name +:+ ".pdf") dot disk) else (false, disk)
|}.

Definition empty_disk : @state sample_disk :=
  {| env := ([] : dict string Digraph); stdout := []; render_calls := [] |}.

(** ** The statements of the specification

    The definitions below are not part of the program: they say, in the
    words of the specification, what the program is expected to compute. *)

Section DiffSpec.
Context `{PyFloatOps} {K : Type} `{EqDecision K}.
Implicit Types (old new : dict K string) (k : K).

(** The status the specification gives a key. *)
Definition status_of old new k : option status :=
  match dict_mem k old, dict_mem k new with
  | true, true => Some ok
  | true, false => Some missing
  | false, true => Some extra
  | false, false => None
  end.

(** The entry of the delta mapping the specification gives a key: the
    rounded difference for a key of both maps whose old weight is not the
    placeholder, the empty marker for a key of [old] only. *)
Definition delta_of old new k : option delta :=
  match dict_get k old, dict_get k new with
  | Some vo, Some vn =>
      if decide (vo ≠ placeholder) then
        match float vo, float vn with
        | Some a, Some b => Some (DeltaNum (round3 (float_sub a b)))
        | _, _ => None
        end
      else None
  | Some _, None => Some DeltaEmpty
  | None, _ => None
  end.

(** Every conversion [diff] performs at the key [k] succeeds. *)
Definition converts_at old new k : Prop :=
  ∀ vo vn, dict_get k old = Some vo → dict_get k new = Some vn →
           vo ≠ placeholder → is_Some (float vo) ∧ is_Some (float vn).

Definition diff_defined old new : Prop := ∀ k, converts_at old new k.

(** The loop body without its exceptions. *)
Definition old_step_pure old new
    (acc : dict K status * dict K delta) (edge : K) : dict K status * dict K delta :=
  (dict_set edge (if dict_mem edge new then ok else missing) acc.1,
   match delta_of old new edge with
   | Some d => dict_set edge d acc.2
   | None => acc.2
   end).

(** The two loops of [diff] without their exceptions. *)
Definition diff_total old new : dict K status * dict K delta :=
  (foldl (diff_new_step old)
         (foldl (old_step_pure old new) ([], []) (dict_keys old)).1 (dict_keys new),
   (foldl (old_step_pure old new) ([], []) (dict_keys old)).2).
End DiffSpec.

(** The key the pipeline files an edge under. *)
Definition edge_key (e : edge) : edge := (first_token e.1, first_token e.2).

(** What the specification asks of the name [x'] an identifier [x] resolves
    to: [x] itself when no label stands at a position of [x], and the first
    token of the label at the position of [x] otherwise (the last such
    position, should the identifier occur twice). *)
Definition resolves (binary_names labels : list string) (x x' : string) : Prop :=
  ((∀ j, j < length labels → binary_names !! j ≠ Some x) → x' = x)
  ∧ (∀ j l, binary_names !! j = Some x → labels !! j = Some l →
            (∀ j', j < j' → j' < length labels → binary_names !! j' ≠ Some x) →
            x' = first_token l).

(** The colour the rendering rule gives the edge [key]. *)
Definition edge_color (dfg_diff : dict edge status) (greens : list string) (key : edge)
    : string :=
  if bool_decide (key.1 ∈ greens) || bool_decide (key.2 ∈ greens) then blue
  else if decide (dict_get key dfg_diff = Some ok) then "black" else "red".

Definition edge_stmt (dfg_diff : dict edge status) (greens : list string) (key : edge)
    : stmt :=
  Edge key.1 key.2
       [("color", edge_color dfg_diff greens key); ("style", "solid"); ("label", "")].

Definition node_stmt (dict_diff_nodes : dict_diff string) (a : string) : stmt :=
  Node a (node_attributes_of dict_diff_nodes a).

Definition info_stmt : stmt := Node no_differences [("color", "white")].

(** The graph of a diff, statement by statement. *)
Definition diff_graph (dfg_diff : dict edge status) (dict_diff_nodes : dict_diff string)
    (name : string) : Digraph :=
  {| graph_name := name;
     body := (node_stmt dict_diff_nodes
                <$> elements (list_to_set (C := gset string) (flatten (dict_keys dfg_diff))))
             ++ (edge_stmt dfg_diff (green dict_diff_nodes) <$> dict_keys dfg_diff)
             ++ (if decide (length dfg_diff = 0) then [info_stmt] else []);
     graph_attr := [("ratio", "auto"); ("size", "100,100")] |}.

Section MainSpec.
Context `{PyFloatOps}.

Definition resolved_edges (p : parsed) : list edge :=
  match_binary_names_labels (edges_origin_dest p) (binary_names p) (labels p).

(** The node diff and the canonical status mapping [main] draws. *)
Definition main_nodes (old new : parsed) : dict_diff string :=
  create_dict_diff (unique_el (resolved_edges old)) (unique_el (resolved_edges new)).

Definition main_status (old new : parsed) : dict edge status :=
  modifica_dfg_result
    (diff_total (from_list_edges_to_dict (resolved_edges old))
                (from_list_edges_to_dict (resolved_edges new))).1.

Definition full_graph (old new : parsed) (name : string) : Digraph :=
  diff_graph (main_status old new) (main_nodes old new) name.

Definition filtered_graph (old new : parsed) (name : string) : Digraph :=
  diff_graph (imp_edges_modified (main_status old new)) (main_nodes old new) name.
End MainSpec.

(** Two small models: [a -> b] before, [a -> b -> c] after. *)
Definition sample_old : parsed :=
  {| edges_origin_dest := [("a", "b")];
     labels := ["A (3)"; "B (3)"];
     binary_names := ["a"; "b"] |}.

Definition sample_new : parsed :=
  {| edges_origin_dest := [("a", "b"); ("b", "c")];
     labels := ["A (2)"; "B (2)"; "C (1)"];
     binary_names := ["a"; "b"; "c"] |}.

(** A text without the separator [' ']. *)
Fixpoint no_space (s : string) : bool :=
  match s with
  | EmptyString => true
  | String c rest => negb (Ascii.eqb c space) && no_space rest
  end.

(** The two sentinels the canonicalizer rewrites. *)
Definition is_sentinel (item : string) : Prop := item = "@@S" ∨ item = "@@E".

(** The status of a key when the two maps change places. *)
Definition swap_status (st : status) : status :=
  match st with
  | ok => ok
  | missing => extra
  | extra => missing
  end.

(** The name of a node statement. *)
Definition stmt_node_name (s : stmt) : option string :=
  match s with
  | Node name _ => Some name
  | Edge _ _ _ => None
  end.

(** Some conversion [diff] performs fails: a key of both maps has an old
    weight that is not the placeholder, and [float] rejects that weight or
    the new one. *)
Definition conversion_fails `{PyFloatOps} {K : Type} `{EqDecision K}
    (old new : dict K string) : Prop :=
  ∃ k vo vn, dict_get k old = Some vo ∧ dict_get k new = Some vn
             ∧ vo ≠ placeholder ∧ (float vo = None ∨ float vn = None).

(** The names of the node statements of a graph, in order. *)
Definition node_names (g : Digraph) : list string := omap stmt_node_name (body g).

(** The lines [main] prints before it draws. *)
Definition progress_lines : list string :=
  ["Matching binary names to original names..."; "Identifying unique elements...";
   "Creating difference dictionaries..."; "Converting edge lists to dictionaries...";
   "Calculating differences between DFGs..."; "Modifying DFG results...";
   "Drawing differences..."].

(** * Properties *)

(** ** Dictionaries *)

Section DictFacts.
Context {K V : Type} `{EqDecision K}.
Implicit Types (d : dict K V) (k : K) (v : V).

Lemma dict_get_None k d : dict_get k d = None ↔ k ∉ dict_keys d.
Proof.
  unfold dict_keys. induction d as [|[k' v'] d IH]; simpl.
  - split; [intros _; apply not_elem_of_nil | done].
  - rewrite not_elem_of_cons. destruct (decide (k = k')); [naive_solver | tauto].
Qed.

Lemma dict_get_is_Some k d : is_Some (dict_get k d) ↔ k ∈ dict_keys d.
Proof.
  rewrite <- not_eq_None_Some, dict_get_None.
  destruct (decide (k ∈ dict_keys d)); naive_solver.
Qed.

Lemma dict_mem_true k d : dict_mem k d = true ↔ k ∈ dict_keys d.
Proof. unfold dict_mem. rewrite bool_decide_eq_true. apply dict_get_is_Some. Qed.

Lemma dict_mem_false k d : dict_mem k d = false ↔ k ∉ dict_keys d.
Proof. rewrite <- dict_mem_true. destruct (dict_mem k d); naive_solver. Qed.

Lemma dict_get_elem_of k v d : dict_get k d = Some v → (k, v) ∈ d.
Proof.
  induction d as [|[k' v'] d IH]; simpl; [done|].
  destruct (decide (k = k')) as [->|]; [intros [= ->]; left | right; auto].
Qed.

Lemma dict_get_wf k v d : dict_wf d → (k, v) ∈ d → dict_get k d = Some v.
Proof.
  unfold dict_wf, dict_keys. induction d as [|[k' v'] d IH]; simpl.
  - intros _ Hin. by apply elem_of_nil in Hin.
  - rewrite NoDup_cons. intros [Hk Hd] Hin. apply elem_of_cons in Hin as [[= -> ->]|Hin].
    + by rewrite decide_True.
    + rewrite decide_False; [auto|]. intros ->. apply Hk.
      apply (list_elem_of_fmap_2 fst) in Hin. done.
Qed.

Lemma dict_get_app k d1 d2 :
  dict_get k (d1 ++ d2) = match dict_get k d1 with Some v => Some v | None => dict_get k d2 end.
Proof.
  induction d1 as [|[k' v'] d1 IH]; simpl; [done|]. by destruct (decide (k = k')).
Qed.

Lemma dict_get_set k k' v d :
  dict_get k' (dict_set k v d) = if decide (k' = k) then Some v else dict_get k' d.
Proof.
  induction d as [|[k0 v0] d IH]; simpl.
  - done.
  - destruct (decide (k = k0)) as [->|Hne]; simpl.
    + by destruct (decide (k' = k0)).
    + rewrite IH. destruct (decide (k' = k0)) as [->|]; [|done].
      by rewrite decide_False.
Qed.

Lemma dict_keys_set k v d :
  dict_keys (dict_set k v d) = if dict_mem k d then dict_keys d else dict_keys d ++ [k].
Proof.
  unfold dict_keys. induction d as [|[k0 v0] d IH]; csimpl; [done|].
  unfold dict_mem in *. csimpl. destruct (decide (k = k0)) as [->|Hne]; csimpl.
  - done.
  - rewrite IH. by destruct (bool_decide (is_Some (dict_get k d))).
Qed.

Lemma elem_of_dict_keys_set k k' v d :
  k' ∈ dict_keys (dict_set k v d) ↔ k' = k ∨ k' ∈ dict_keys d.
Proof.
  rewrite dict_keys_set. destruct (dict_mem k d) eqn:Hm.
  - apply dict_mem_true in Hm. naive_solver.
  - rewrite elem_of_app, list_elem_of_singleton. tauto.
Qed.

Lemma dict_set_wf k v d : dict_wf d → dict_wf (dict_set k v d).
Proof.
  unfold dict_wf. rewrite dict_keys_set. destruct (dict_mem k d) eqn:Hm; [done|].
  apply dict_mem_false in Hm. intros Hd. apply NoDup_app. split_and!; [done| |apply NoDup_singleton].
  intros x Hx Hx'. apply list_elem_of_singleton in Hx' as ->. done.
Qed.

(** Assigning to a key that is not there appends. *)
Lemma dict_set_fresh k v d : k ∉ dict_keys d → dict_set k v d = d ++ [(k, v)].
Proof.
  unfold dict_keys. induction d as [|[k0 v0] d IH]; simpl; [done|].
  rewrite not_elem_of_cons. intros [Hne Hk]. rewrite decide_False; [|done]. by rewrite IH.
Qed.

Lemma dict_of_pairs_from_wf (acc ps : dict K V) :
  dict_wf acc → dict_wf (foldl (λ a kv, dict_set kv.1 kv.2 a) acc ps).
Proof.
  revert acc. induction ps as [|[k v] ps IH]; simpl; [done|].
  intros acc Hacc. apply IH, dict_set_wf, Hacc.
Qed.

Lemma dict_of_pairs_wf (ps : dict K V) : dict_wf (dict_of_pairs ps).
Proof. apply dict_of_pairs_from_wf. apply NoDup_nil_2. Qed.

Lemma dict_of_pairs_from_keys (acc ps : dict K V) k :
  k ∈ dict_keys (foldl (λ a kv, dict_set kv.1 kv.2 a) acc ps)
  ↔ k ∈ dict_keys acc ∨ k ∈ dict_keys ps.
Proof.
  revert acc. induction ps as [|[k0 v0] ps IH]; intros acc; csimpl.
  - unfold dict_keys. csimpl. set_solver.
  - rewrite IH, elem_of_dict_keys_set. unfold dict_keys. csimpl. set_solver.
Qed.

Lemma elem_of_dict_of_pairs_keys (ps : dict K V) k :
  k ∈ dict_keys (dict_of_pairs ps) ↔ k ∈ dict_keys ps.
Proof.
  unfold dict_of_pairs. rewrite dict_of_pairs_from_keys.
  unfold dict_keys. csimpl. set_solver.
Qed.

(** In [dict(pairs)] the last pair of a key decides its value. *)
Lemma dict_get_of_pairs_from (acc ps : dict K V) k :
  dict_get k (foldl (λ a kv, dict_set kv.1 kv.2 a) acc ps)
  = match dict_get k (reverse ps) with Some v => Some v | None => dict_get k acc end.
Proof.
  revert acc. induction ps as [|[k0 v0] ps IH]; intros acc; simpl; [done|].
  rewrite IH, reverse_cons, dict_get_app, dict_get_set. simpl.
  destruct (dict_get k (reverse ps)); [done|]. by destruct (decide (k = k0)).
Qed.

Lemma dict_get_of_pairs (ps : dict K V) k :
  dict_get k (dict_of_pairs ps) = dict_get k (reverse ps).
Proof.
  unfold dict_of_pairs. rewrite dict_get_of_pairs_from. by destruct (dict_get k (reverse ps)).
Qed.

(** Rebuilding a dict from its own items gives the dict back. *)
Lemma dict_of_pairs_from_id (acc ps : dict K V) :
  dict_wf (acc ++ ps) → foldl (λ a kv, dict_set kv.1 kv.2 a) acc ps = acc ++ ps.
Proof.
  revert acc. induction ps as [|[k v] ps IH]; intros acc Hwf; simpl.
  - by rewrite app_nil_r.
  - rewrite dict_set_fresh.
    + rewrite IH; rewrite <- app_assoc; done.
    + unfold dict_wf, dict_keys in Hwf. rewrite fmap_app in Hwf.
      apply NoDup_app in Hwf as (_ & Hdisj & _). intros Hin. apply (Hdisj k Hin). left.
Qed.

Lemma dict_of_pairs_id d : dict_wf d → dict_of_pairs d = d.
Proof. intros Hwf. unfold dict_of_pairs. by rewrite dict_of_pairs_from_id. Qed.

(** The lookups of a dict do not depend on the order of its items. *)
Lemma dict_get_Permutation k d d' : dict_wf d → d ≡ₚ d' → dict_get k d = dict_get k d'.
Proof.
  intros Hwf Hp.
  assert (Hwf' : dict_wf d') by (unfold dict_wf, dict_keys in *; by rewrite <- Hp).
  destruct (dict_get k d) as [v|] eqn:Hg.
  - symmetry. apply dict_get_wf; [done|]. rewrite <- Hp. by apply dict_get_elem_of.
  - symmetry. apply dict_get_None. apply dict_get_None in Hg.
    unfold dict_keys in *. by rewrite <- Hp.
Qed.

Lemma dict_item_Some k d r : dict_item k d = inr r ↔ dict_get k d = Some r.
Proof. unfold dict_item. destruct (dict_get k d); unfold ret, raise; naive_solver. Qed.
End DictFacts.

(** ** The weighted DFG diff *)

Section DiffFacts.
Context `{PyFloatOps} {K : Type} `{EqDecision K}.
Implicit Types (old new : dict K string) (k : K).

Lemma diff_old_step_returns old new acc x :
  x ∈ dict_keys old → converts_at old new x →
  diff_old_step old new acc x = ret (old_step_pure old new acc x).
Proof.
  intros Hx Hc. destruct acc as [r rn]. unfold diff_old_step, old_step_pure, delta_of.
  apply dict_get_is_Some in Hx as [vo Hvo]. unfold dict_item. rewrite Hvo. simpl.
  destruct (dict_mem x new) eqn:Hm.
  - apply dict_mem_true, dict_get_is_Some in Hm as [vn Hvn]. rewrite Hvn. simpl.
    destruct (decide (vo ≠ placeholder)) as [Hne|]; [|done].
    destruct (Hc vo vn Hvo Hvn Hne) as [[a Ha] [b Hb]].
    unfold to_float. rewrite Ha, Hb. done.
  - apply dict_mem_false, dict_get_None in Hm. rewrite Hm. done.
Qed.

Lemma diff_old_step_inv old new acc x res :
  x ∈ dict_keys old → diff_old_step old new acc x = inr res →
  converts_at old new x.
Proof.
  intros Hx Hs vo vn Hvo Hvn Hne. destruct acc as [r rn].
  unfold diff_old_step, dict_item, to_float in Hs.
  assert (Hm : dict_mem x new = true) by (apply dict_mem_true, dict_get_is_Some; eauto).
  rewrite Hm, Hvo, Hvn in Hs. simpl in Hs. rewrite decide_True in Hs by done.
  destruct (float vo); simpl in Hs; [|done].
  destruct (float vn); simpl in Hs; [|done]. eauto.
Qed.

(** The only exception of the loop body is the ValueError of [float]. *)
Lemma diff_old_step_raises old new acc x e :
  x ∈ dict_keys old → diff_old_step old new acc x = inl e → e = ValueError.
Proof.
  intros Hx Hs. destruct acc as [r rn].
  apply dict_get_is_Some in Hx as [vo Hvo].
  unfold diff_old_step, dict_item, to_float in Hs. rewrite Hvo in Hs. simpl in Hs.
  destruct (dict_mem x new) eqn:Hm; [|done].
  apply dict_mem_true, dict_get_is_Some in Hm as [vn Hvn]. rewrite Hvn in Hs.
  destruct (decide (vo ≠ placeholder)); [|done].
  destruct (float vo); simpl in Hs; [|by inversion Hs].
  destruct (float vn); simpl in Hs; [done|by inversion Hs].
Qed.

Lemma old_loop_returns old new ks acc :
  (∀ x, x ∈ ks → x ∈ dict_keys old ∧ converts_at old new x) →
  for_each (diff_old_step old new) ks acc = ret (foldl (old_step_pure old new) acc ks).
Proof.
  revert acc. induction ks as [|x ks IH]; intros acc Hks; simpl; [done|].
  destruct (Hks x) as [Hx Hc]; [left|].
  rewrite diff_old_step_returns by done. simpl. apply IH.
  intros y Hy. apply Hks. by right.
Qed.

Lemma old_loop_inv old new ks acc res :
  (∀ x, x ∈ ks → x ∈ dict_keys old) →
  for_each (diff_old_step old new) ks acc = inr res →
  ∀ x, x ∈ ks → converts_at old new x.
Proof.
  revert acc. induction ks as [|x ks IH]; intros acc Hks Hrun y Hy.
  - by apply elem_of_nil in Hy.
  - simpl in Hrun. destruct (diff_old_step old new acc x) as [e|acc'] eqn:Hs; [done|].
    simpl in Hrun. apply elem_of_cons in Hy as [->|Hy].
    + eapply diff_old_step_inv; [|done]. apply Hks. left.
    + eapply IH; [|done..]. intros z Hz. apply Hks. by right.
Qed.

Lemma old_loop_raises old new ks acc e :
  (∀ x, x ∈ ks → x ∈ dict_keys old) →
  for_each (diff_old_step old new) ks acc = inl e → e = ValueError.
Proof.
  revert acc. induction ks as [|x ks IH]; intros acc Hks Hrun; [done|].
  simpl in Hrun. destruct (diff_old_step old new acc x) as [e'|acc'] eqn:Hs; simpl in Hrun.
  - inversion Hrun; subst. eapply diff_old_step_raises; [|done]. apply Hks. left.
  - eapply IH; [|done]. intros z Hz. apply Hks. by right.
Qed.

(** [diff] returns exactly when all its conversions succeed, and then it
    is the two loops without their exceptions. *)
Lemma diff_returns old new : diff_defined old new → diff old new = ret (diff_total old new).
Proof.
  intros Hd. unfold diff, diff_total.
  rewrite old_loop_returns by (intros x Hx; split; [done | apply Hd]).
  simpl. by destruct (foldl _ _ _).
Qed.

Lemma diff_returns_inv old new res : diff old new = inr res → diff_defined old new.
Proof.
  intros Hrun k vo vn Hvo Hvn Hne. unfold diff in Hrun.
  destruct (for_each _ _ _) as [e|acc] eqn:Hloop; [done|].
  eapply old_loop_inv; [| done | | done..]; [done|].
  apply dict_get_is_Some. eauto.
Qed.

(** A run that returns shows that all conversions succeeded. *)
Lemma diff_defined_by_run old new :
  (if diff old new is inr _ then True else False) → diff_defined old new.
Proof.
  destruct (diff old new) as [|res] eqn:Hrun; [done|]. intros _.
  by eapply diff_returns_inv.
Qed.

Lemma diff_raises old new e : diff old new = inl e → e = ValueError.
Proof.
  unfold diff. destruct (for_each _ _ _) as [e'|[r rn]] eqn:Hloop; simpl; [|done].
  intros [= <-]. by eapply old_loop_raises.
Qed.

(** What the first loop leaves in the two mappings. *)
Lemma old_loop_status old new ks acc k :
  dict_get k (foldl (old_step_pure old new) acc ks).1
  = if bool_decide (k ∈ ks) then Some (if dict_mem k new then ok else missing)
    else dict_get k acc.1.
Proof.
  revert acc. induction ks as [|x ks IH]; intros acc; [done|cbn [foldl]].
  - rewrite IH. simpl. rewrite dict_get_set.
    destruct (decide (k = x)) as [->|Hne].
    + rewrite (bool_decide_eq_true_2 (x ∈ x :: ks)) by left. by case_bool_decide.
    + by rewrite (bool_decide_ext (k ∈ x :: ks) (k ∈ ks))
        by (rewrite elem_of_cons; naive_solver).
Qed.

Lemma old_loop_delta old new ks acc k :
  dict_get k (foldl (old_step_pure old new) acc ks).2
  = if bool_decide (k ∈ ks)
    then match delta_of old new k with Some d => Some d | None => dict_get k acc.2 end
    else dict_get k acc.2.
Proof.
  revert acc. induction ks as [|x ks IH]; intros acc; [done|cbn [foldl]].
  - rewrite IH. simpl.
    assert (Hstep : dict_get k (match delta_of old new x with
                                | Some d => dict_set x d acc.2 | None => acc.2 end)
                    = if decide (k = x)
                      then match delta_of old new k with
                           | Some d => Some d | None => dict_get k acc.2 end
                      else dict_get k acc.2).
    { destruct (decide (k = x)) as [->|Hne].
      - destruct (delta_of old new x); [|done]. by rewrite dict_get_set, decide_True.
      - destruct (delta_of old new x); [|done]. by rewrite dict_get_set, decide_False. }
    rewrite Hstep. destruct (decide (k = x)) as [->|Hne].
    + rewrite (bool_decide_eq_true_2 (x ∈ x :: ks)) by left.
      case_bool_decide; by destruct (delta_of old new x).
    + by rewrite (bool_decide_ext (k ∈ x :: ks) (k ∈ ks))
        by (rewrite elem_of_cons; naive_solver).
Qed.

Lemma old_loop_wf old new ks acc :
  dict_wf acc.1 → dict_wf acc.2 →
  dict_wf (foldl (old_step_pure old new) acc ks).1
  ∧ dict_wf (foldl (old_step_pure old new) acc ks).2.
Proof.
  revert acc. induction ks as [|x ks IH]; intros acc H1 H2; simpl; [done|].
  apply IH; simpl; [by apply dict_set_wf|].
  destruct (delta_of old new x); [by apply dict_set_wf | done].
Qed.

(** What the second loop adds. *)
Lemma new_loop_status old ks r k :
  dict_get k (foldl (diff_new_step old) r ks)
  = if bool_decide (k ∈ ks) && negb (dict_mem k old) then Some extra else dict_get k r.
Proof.
  revert r. induction ks as [|x ks IH]; intros r; [done|cbn [foldl]].
  rewrite IH. unfold diff_new_step.
  destruct (decide (k = x)) as [->|Hne].
  - rewrite (bool_decide_eq_true_2 (x ∈ x :: ks)) by left.
    destruct (dict_mem x old); simpl.
    + by rewrite andb_false_r.
    + rewrite andb_true_r, dict_get_set, decide_True by done. by case_bool_decide.
  - rewrite (bool_decide_ext (k ∈ x :: ks) (k ∈ ks)) by (rewrite elem_of_cons; naive_solver).
    destruct (bool_decide (k ∈ ks) && negb (dict_mem k old)); [done|].
    destruct (negb (dict_mem x old)); [|done]. by rewrite dict_get_set, decide_False.
Qed.

Lemma new_loop_wf old ks r : dict_wf r → dict_wf (foldl (diff_new_step old) r ks).
Proof.
  revert r. induction ks as [|x ks IH]; intros r Hr; simpl; [done|].
  apply IH. unfold diff_new_step. destruct (negb _); [by apply dict_set_wf | done].
Qed.

Lemma dict_mem_keys {V} (d : dict K V) k : bool_decide (k ∈ dict_keys d) = dict_mem k d.
Proof. unfold dict_mem. apply bool_decide_ext. symmetry. apply dict_get_is_Some. Qed.

(** The two mappings [diff] returns, key by key. *)
Lemma diff_lookup old new st dl :
  diff old new = inr (st, dl) →
  (∀ k, dict_get k st = status_of old new k)
  ∧ (∀ k, dict_get k dl = delta_of old new k)
  ∧ dict_wf st ∧ dict_wf dl.
Proof.
  intros Hrun. pose proof (diff_returns_inv _ _ _ Hrun) as Hd.
  rewrite (diff_returns _ _ Hd) in Hrun. injection Hrun as <- <-.
  split_and!.
  - intros k. rewrite new_loop_status, old_loop_status, !dict_mem_keys. unfold status_of.
    by destruct (dict_mem k old), (dict_mem k new).
  - intros k. rewrite old_loop_delta, dict_mem_keys. simpl. unfold delta_of, dict_mem.
    destruct (dict_get k old) as [vo|] eqn:Hvo.
    + rewrite bool_decide_eq_true_2 by eauto.
      by destruct (match dict_get k new with Some _ => _ | None => _ end).
    + by rewrite bool_decide_eq_false_2 by (intros [? [=]]).
  - apply new_loop_wf, old_loop_wf; apply NoDup_nil_2.
  - apply old_loop_wf; apply NoDup_nil_2.
Qed.

Lemma status_of_Some old new k :
  is_Some (status_of old new k) ↔ k ∈ dict_keys old ∨ k ∈ dict_keys new.
Proof.
  unfold status_of. rewrite <- !dict_mem_true.
  destruct (dict_mem k old), (dict_mem k new); rewrite ?is_Some_alt; naive_solver.
Qed.

Lemma diff_defined_Permutation old new old' new' :
  dict_wf old → dict_wf new → old' ≡ₚ old → new' ≡ₚ new →
  diff_defined old new → diff_defined old' new'.
Proof.
  intros Ho Hn Hpo Hpn Hd k vo vn Hvo Hvn. apply (Hd k).
  - by rewrite (dict_get_Permutation k old old').
  - by rewrite (dict_get_Permutation k new new').
Qed.
End DiffFacts.

(** C1. DFG-diff coverage: whenever [diff] runs to its end (all the
    conversions it performs succeed), the status mapping it returns has
    exactly the keys of [old] and of [new], each once, with status [ok] for
    a key of both, [missing] for a key of [old] only and [extra] for a key of
    [new] only; listing the items of the two inputs in another order changes
    no status. *)
Theorem diff_status_coverage `{PyFloatOps} {K : Type} `{EqDecision K}
    (old new : dict K string) :
  diff_defined old new →
  ∃ st dl, diff old new = ret (st, dl)
    ∧ (∀ k, k ∈ dict_keys st ↔ k ∈ dict_keys old ∨ k ∈ dict_keys new)
    ∧ NoDup (dict_keys st)
    ∧ (∀ k, k ∈ dict_keys old → k ∈ dict_keys new → dict_get k st = Some ok)
    ∧ (∀ k, k ∈ dict_keys old → k ∉ dict_keys new → dict_get k st = Some missing)
    ∧ (∀ k, k ∉ dict_keys old → k ∈ dict_keys new → dict_get k st = Some extra)
    ∧ (∀ old' new', dict_wf old → dict_wf new → old' ≡ₚ old → new' ≡ₚ new →
         ∃ st' dl', diff old' new' = ret (st', dl')
                    ∧ ∀ k, dict_get k st' = dict_get k st).
Proof.
  intros Hd. eexists _, _. split; [by apply diff_returns|].
  destruct (diff_lookup old new _ _ (diff_returns old new Hd)) as (Hst & _ & Hwf & _).
  split_and!.
  - intros k. by rewrite <- dict_get_is_Some, Hst, status_of_Some.
  - exact Hwf.
  - intros k Ho Hn. rewrite Hst. unfold status_of.
    apply dict_mem_true in Ho, Hn. by rewrite Ho, Hn.
  - intros k Ho Hn. rewrite Hst. unfold status_of.
    apply dict_mem_true in Ho. apply dict_mem_false in Hn. by rewrite Ho, Hn.
  - intros k Ho Hn. rewrite Hst. unfold status_of.
    apply dict_mem_false in Ho. apply dict_mem_true in Hn. by rewrite Ho, Hn.
  - intros old' new' Ho Hn Hpo Hpn.
    pose proof (diff_defined_Permutation old new old' new' Ho Hn Hpo Hpn Hd) as Hd'.
    eexists _, _. split; [by apply diff_returns|].
    destruct (diff_lookup old' new' _ _ (diff_returns old' new' Hd')) as (Hst' & _).
    intros k. rewrite Hst, Hst'. unfold status_of, dict_mem.
    by rewrite (dict_get_Permutation k old old'), (dict_get_Permutation k new new').
Qed.

Lemma diff_status_coverage_witness :
  let old : dict edge string := [(("A", "B"), "5.0"); (("A", "C"), "-")] in
  let new : dict edge string := [(("B", "C"), "1"); (("A", "B"), "3.0")] in
  diff_defined old new
  ∧ ∃ st dl, diff old new = ret (st, dl)
      ∧ ∀ k, k ∈ dict_keys st ↔ k ∈ dict_keys old ∨ k ∈ dict_keys new.
Proof.
  intros old new.
  assert (Hd : diff_defined old new).
  { apply diff_defined_by_run. vm_compute. exact I. }
  split; [exact Hd|].
  destruct (diff_status_coverage old new Hd) as (st & dl & Hrun & Hkeys & _).
  exists st, dl. split; [exact Hrun | exact Hkeys].
Defined.

(** C2. The guard of the delta computation looks at the old weight only: a
    key of both maps whose old weight is the numeric string [5.0] and whose
    new weight is the placeholder makes [diff] apply [float] to the
    placeholder, and the run ends in the ValueError of that conversion. *)
Theorem diff_placeholder_in_new_raises :
  let old : dict edge string := [(("A", "B"), "5.0")] in
  let new : dict edge string := [(("A", "B"), placeholder)] in
  is_Some (float "5.0") ∧ float placeholder = None
  ∧ diff old new = raise ValueError.
Proof. vm_compute. split; [eauto | split; reflexivity]. Qed.

(** C9. Delta sign convention: whenever [diff] runs to its end, the delta it
    records for a key of both maps whose old weight is not the placeholder
    is [round(float(old[k]) - float(new[k]), 3)], old minus new; on binary64
    numbers the weights [5.0] and [3.0] give exactly [2.0]. *)
Theorem diff_delta_sign_convention :
  (∀ `{PyFloatOps} {K : Type} `{EqDecision K} (old new : dict K string),
     diff_defined old new →
     ∃ st dl, diff old new = ret (st, dl)
       ∧ ∀ k vo vn, dict_get k old = Some vo → dict_get k new = Some vn →
           vo ≠ placeholder →
           ∃ a b, float vo = Some a ∧ float vn = Some b
                  ∧ dict_get k dl = Some (DeltaNum (round3 (float_sub a b))))
  ∧ (∃ two, float (PyFloatOps := binary64_ops) "2.0" = Some two
            ∧ diff (H := binary64_ops) [(("A", "B"), "5.0")] [(("A", "B"), "3.0")]
              = ret ([(("A", "B"), ok)], [(("A", "B"), DeltaNum two)])).
Proof.
  split.
  - intros H K Heq old new Hd. eexists _, _. split; [by apply diff_returns|].
    destruct (diff_lookup old new _ _ (diff_returns old new Hd)) as (_ & Hdl & _).
    intros k vo vn Hvo Hvn Hne.
    destruct (Hd k vo vn Hvo Hvn Hne) as [[a Ha] [b Hb]].
    exists a, b. split_and!; [done..|].
    rewrite Hdl. unfold delta_of. rewrite Hvo, Hvn, Ha, Hb. by rewrite decide_True.
  - eexists. split; vm_compute; reflexivity.
Qed.

Lemma diff_delta_sign_convention_witness :
  let old : dict edge string := [(("A", "B"), "0.3"); (("A", "C"), "-")] in
  let new : dict edge string := [(("A", "B"), "0.1"); (("A", "C"), "7")] in
  diff_defined old new
  ∧ ∃ st dl a b, diff old new = ret (st, dl)
      ∧ float "0.3" = Some a ∧ float "0.1" = Some b
      ∧ dict_get ("A", "B") dl = Some (DeltaNum (round3 (float_sub a b)))
      ∧ float "0.2" = Some (round3 (float_sub a b)).
Proof.
  intros old new.
  assert (Hd : diff_defined old new).
  { apply diff_defined_by_run. vm_compute. exact I. }
  split; [exact Hd|].
  destruct (proj1 diff_delta_sign_convention binary64_ops edge _ old new Hd)
    as (st & dl & Hrun & Hdelta).
  destruct (Hdelta ("A", "B") "0.3" "0.1") as (a & b & Ha & Hb & Hk);
    [reflexivity | reflexivity | discriminate |].
  exists st, dl, a, b. split_and!; try assumption.
  vm_compute in Ha, Hb. injection Ha as <-. injection Hb as <-. reflexivity.
Defined.

(** ** The directly-follows maps of the pipeline *)

Lemma from_list_edges_to_dict_pairs (edges : list edge) :
  from_list_edges_to_dict edges = dict_of_pairs ((λ e, (edge_key e, placeholder)) <$> edges).
Proof.
  unfold from_list_edges_to_dict, dict_of_pairs.
  cut (∀ acc : dict edge string,
         foldl (λ a e, dict_set (first_token e.1, first_token e.2) placeholder a) acc edges
         = foldl (λ a kv, dict_set kv.1 kv.2 a) acc ((λ e, (edge_key e, placeholder)) <$> edges)).
  { intros Hgen. apply Hgen. }
  induction edges as [|e edges IH]; intros acc; [done|]. csimpl. by rewrite IH.
Qed.

Lemma from_list_edges_to_dict_value (edges : list edge) k v :
  dict_get k (from_list_edges_to_dict edges) = Some v → v = placeholder.
Proof.
  rewrite from_list_edges_to_dict_pairs, dict_get_of_pairs. intros Hg.
  apply dict_get_elem_of, elem_of_reverse, list_elem_of_fmap in Hg as (e & [= _ ->] & _).
  done.
Qed.

Lemma from_list_edges_to_dict_keys (edges : list edge) k :
  k ∈ dict_keys (from_list_edges_to_dict edges) ↔ ∃ e, e ∈ edges ∧ k = edge_key e.
Proof.
  rewrite from_list_edges_to_dict_pairs, elem_of_dict_of_pairs_keys.
  unfold dict_keys. rewrite <- list_fmap_compose, list_elem_of_fmap. naive_solver.
Qed.

(** C10. The directly-follows map the pipeline builds from a list of edges
    has the pairs of first tokens of the endpoints as keys and the
    placeholder as every value; so the diff of two such maps always runs to
    its end, and its delta mapping holds no number: it holds the empty
    marker, for exactly the keys whose status is [missing]. *)
Theorem pipeline_deltas_are_empty_markers `{PyFloatOps} (edges_old edges_new : list edge) :
  let old := from_list_edges_to_dict edges_old in
  let new := from_list_edges_to_dict edges_new in
  (∀ k, k ∈ dict_keys old
        ↔ ∃ e, e ∈ edges_old ∧ k = (first_token e.1, first_token e.2))
  ∧ (∀ k, k ∈ dict_keys old → dict_get k old = Some placeholder)
  ∧ ∃ st dl, diff old new = ret (st, dl)
      ∧ (∀ k d, dict_get k dl = Some d → d = DeltaEmpty ∧ dict_get k st = Some missing)
      ∧ (∀ k, dict_get k st = Some missing → dict_get k dl = Some DeltaEmpty).
Proof.
  intros old new.
  assert (Hval : ∀ k v, dict_get k old = Some v → v = placeholder)
    by apply from_list_edges_to_dict_value.
  assert (Hd : diff_defined old new).
  { intros k vo vn Hvo _ Hne. by apply Hval in Hvo. }
  split_and!.
  - apply from_list_edges_to_dict_keys.
  - intros k Hk. apply dict_get_is_Some in Hk as [v Hv]. by rewrite Hv, (Hval k v Hv).
  - eexists _, _. split; [by apply diff_returns|].
    destruct (diff_lookup old new _ _ (diff_returns old new Hd)) as (Hst & Hdl & _).
    split.
    + intros k d. rewrite Hdl, Hst. unfold delta_of, status_of, dict_mem.
      destruct (dict_get k old) as [vo|] eqn:Hvo; [|done].
      rewrite (Hval k vo Hvo). destruct (dict_get k new) as [vn|] eqn:Hvn.
      * by rewrite decide_False by (intros Hne; by apply Hne).
      * intros [= <-]. rewrite bool_decide_eq_true_2 by eauto.
        by rewrite bool_decide_eq_false_2 by (intros [? [=]]).
    + intros k. rewrite Hdl, Hst. unfold delta_of, status_of, dict_mem.
      destruct (dict_get k old) as [vo|] eqn:Hvo.
      * rewrite bool_decide_eq_true_2 by eauto.
        destruct (dict_get k new) as [vn|] eqn:Hvn; [|done].
        by rewrite bool_decide_eq_true_2 by eauto.
      * rewrite bool_decide_eq_false_2 by (intros [? [=]]).
        by destruct (bool_decide _).
Qed.

(** ** Node diff *)

(** C4. Node-diff symmetry: the green list of the diff of [(A, B)] and the
    red list of the diff of [(B, A)] hold the same elements, and so do the
    red list of [(A, B)] and the green list of [(B, A)]; green holds, once
    each, the elements of the second argument that are not in the first, red
    those of the first that are not in the second. *)
Theorem create_dict_diff_symmetry `{Countable T} (A B : list T) :
  green (create_dict_diff A B) ≡ₚ red (create_dict_diff B A)
  ∧ red (create_dict_diff A B) ≡ₚ green (create_dict_diff B A)
  ∧ (∀ x, x ∈ green (create_dict_diff A B) ↔ x ∈ B ∧ x ∉ A)
  ∧ (∀ x, x ∈ red (create_dict_diff A B) ↔ x ∈ A ∧ x ∉ B)
  ∧ NoDup (green (create_dict_diff A B))
  ∧ NoDup (red (create_dict_diff A B)).
Proof.
  unfold create_dict_diff. simpl. split_and!.
  - reflexivity.
  - reflexivity.
  - intros x. rewrite elem_of_elements, elem_of_difference, !elem_of_list_to_set. done.
  - intros x. rewrite elem_of_elements, elem_of_difference, !elem_of_list_to_set. done.
  - apply NoDup_elements.
  - apply NoDup_elements.
Qed.

(** ** Canonicalizer *)

Lemma canon_item_idempotent (item : string) : canon_item (canon_item item) = canon_item item.
Proof. unfold canon_item. repeat case_decide; congruence. Qed.

Lemma rekey_keys {K V} `{EqDecision K} (f : K → K) (d : dict K V) k :
  k ∈ dict_keys (rekey f d) ↔ ∃ k0, k0 ∈ dict_keys d ∧ k = f k0.
Proof.
  unfold rekey. rewrite elem_of_dict_of_pairs_keys. unfold dict_keys.
  rewrite <- list_fmap_compose, !list_elem_of_fmap. split.
  - intros ([k0 v] & -> & Hin). exists k0. split; [|done].
    apply list_elem_of_fmap. by exists (k0, v).
  - intros (k0 & Hin & ->). apply list_elem_of_fmap in Hin as ([k1 v] & -> & Hin).
    by exists (k1, v).
Qed.

Lemma rekey_values {K V} `{EqDecision K} (f : K → K) (d : dict K V) k v :
  dict_get k (rekey f d) = Some v → ∃ k0, (k0, v) ∈ d ∧ k = f k0.
Proof.
  unfold rekey. rewrite dict_get_of_pairs. intros Hg.
  apply dict_get_elem_of, elem_of_reverse, list_elem_of_fmap in Hg as ([k0 v0] & [= -> ->] & Hin).
  by exists k0.
Qed.

Lemma rekey_idempotent {K V} `{EqDecision K} (f : K → K) (d : dict K V) :
  (∀ k, f (f k) = f k) → rekey f (rekey f d) = rekey f d.
Proof.
  intros Hf.
  assert (Hfix : (λ kv : K * V, (f kv.1, kv.2)) <$> rekey f d = rekey f d).
  { rewrite <- (list_fmap_id (rekey f d)) at 2. apply Forall_fmap_ext, Forall_forall.
    intros [k v] Hin. simpl.
    assert (Hk : k ∈ dict_keys (rekey f d)).
    { apply list_elem_of_fmap. by exists (k, v). }
    apply rekey_keys in Hk as (k0 & _ & ->). by rewrite Hf. }
  unfold rekey at 1. rewrite Hfix. apply dict_of_pairs_id, dict_of_pairs_wf.
Qed.

(** C5. Canonicalization idempotence: the canonicalizer is a function on
    every mapping with tuple keys (2-tuples, and tuples of any length), and
    applying it twice gives what applying it once gives; a key of the
    result is a key of the input with every [@@S] replaced by [Start] and
    every [@@E] by [End], other items kept, and the value under it is a value
    of the input. *)
Theorem modifica_dfg_result_idempotent {V : Type} :
  (∀ d : dict edge V, modifica_dfg_result (modifica_dfg_result d) = modifica_dfg_result d)
  ∧ (∀ d : dict (list string) V,
       modifica_dfg_result_tuple (modifica_dfg_result_tuple d) = modifica_dfg_result_tuple d)
  ∧ (∀ (d : dict edge V) k,
       k ∈ dict_keys (modifica_dfg_result d)
       ↔ ∃ k0, k0 ∈ dict_keys d ∧ k = (canon_item k0.1, canon_item k0.2))
  ∧ (∀ (d : dict edge V) k v,
       dict_get k (modifica_dfg_result d) = Some v
       → ∃ k0, (k0, v) ∈ d ∧ k = (canon_item k0.1, canon_item k0.2))
  ∧ (∀ d : dict edge V, NoDup (dict_keys (modifica_dfg_result d)))
  ∧ canon_item "@@S" = "Start" ∧ canon_item "@@E" = "End"
  ∧ (∀ item, item ≠ "@@S" → item ≠ "@@E" → canon_item item = item).
Proof.
  split_and!.
  - intros d. apply rekey_idempotent. intros [a b]. unfold canon_edge. simpl.
    by rewrite !canon_item_idempotent.
  - intros d. apply rekey_idempotent. intros k. unfold canon_tuple.
    rewrite <- list_fmap_compose. apply list_fmap_ext. intros i x _. simpl.
    apply canon_item_idempotent.
  - intros d k. apply rekey_keys.
  - intros d k v. apply rekey_values.
  - intros d. apply dict_of_pairs_wf.
  - done.
  - done.
  - intros item H1 H2. unfold canon_item. by rewrite !decide_False.
Qed.

(** ** Identity resolver *)

Lemma dict_get_reverse_last {K V} `{EqDecision K} (ps : dict K V) k v j :
  ps !! j = Some (k, v) →
  (∀ j' p, j < j' → ps !! j' = Some p → p.1 ≠ k) →
  dict_get k (reverse ps) = Some v.
Proof.
  revert j. induction ps as [|p ps IH]; intros j Hj Hlast; [done|].
  rewrite reverse_cons, dict_get_app. destruct j as [|j]; simpl in Hj.
  - injection Hj as ->.
    assert (Hnone : dict_get k (reverse ps) = None).
    { apply dict_get_None. unfold dict_keys. intros Hin.
      apply list_elem_of_fmap in Hin as (q & -> & Hq).
      rewrite elem_of_reverse in Hq. apply list_elem_of_lookup in Hq as [i Hi].
      apply (Hlast (S i) q); [lia | done | done]. }
    rewrite Hnone. simpl. by rewrite decide_True.
  - rewrite (IH j); [done..|]. intros j' q Hlt Hq. apply (Hlast (S j') q); [lia | done].
Qed.

Lemma labels_names_inv_lookup (binary_names labels : list string) (x : string) :
  resolves binary_names labels x
    (dict_get_default x x (dict_of_pairs (zip binary_names (first_token <$> labels)))).
Proof.
  unfold dict_get_default. rewrite dict_get_of_pairs. split.
  - intros Hmiss.
    assert (Hnone : dict_get x (reverse (zip binary_names (first_token <$> labels))) = None).
    { apply dict_get_None. unfold dict_keys. intros Hin.
      apply list_elem_of_fmap in Hin as ([y t] & -> & Hq).
      rewrite elem_of_reverse in Hq. apply list_elem_of_lookup in Hq as [i Hi].
      apply lookup_zip_with_Some in Hi as (y' & t' & [= -> ->] & Hy & Ht).
      apply (Hmiss i); [|done].
      apply lookup_lt_Some in Ht. by rewrite length_fmap in Ht. }
    by rewrite Hnone.
  - intros j l Hx Hl Hlast.
    rewrite (dict_get_reverse_last _ x (first_token l) j); [done| |].
    + apply lookup_zip_with_Some. exists x, (first_token l). split_and!; [done..|].
      by rewrite list_lookup_fmap, Hl.
    + intros j' [y t] Hlt Hq. simpl.
      apply lookup_zip_with_Some in Hq as (y' & t' & [= -> ->] & Hy & Ht). intros ->.
      apply (Hlast j'); [done| |done].
      apply lookup_lt_Some in Ht. by rewrite length_fmap in Ht.
Qed.

(** C6. Identity resolution: the resolver returns one edge per input edge,
    in the same order, and never fails; an endpoint with no entry in the
    table resolves to itself, an endpoint with an entry to the first
    space-delimited token of the label at its position. *)
Theorem match_binary_names_labels_resolves
    (edges_origin_dest : list edge) (binary_names labels : list string) :
  let resolved := match_binary_names_labels edges_origin_dest binary_names labels in
  length resolved = length edges_origin_dest
  ∧ (∀ i o d, edges_origin_dest !! i = Some (o, d) →
       ∃ o' d', resolved !! i = Some (o', d')
                ∧ resolves binary_names labels o o'
                ∧ resolves binary_names labels d d')
  ∧ (∀ i o d o' d' j l, NoDup binary_names →
       edges_origin_dest !! i = Some (o, d) → resolved !! i = Some (o', d') →
       labels !! j = Some l →
       (binary_names !! j = Some o → o' = first_token l)
       ∧ (binary_names !! j = Some d → d' = first_token l)).
Proof.
  intros resolved. subst resolved. unfold match_binary_names_labels.
  assert (Hnodup : ∀ x x' j l, NoDup binary_names → resolves binary_names labels x x' →
            labels !! j = Some l → binary_names !! j = Some x → x' = first_token l).
  { intros x x' j l Hnd [_ Hhit] Hl Hx. apply (Hhit j l Hx Hl).
    intros j' Hlt _ Hx'. pose proof (NoDup_lookup _ _ _ _ Hnd Hx Hx'). lia. }
  split_and!.
  - by rewrite length_fmap.
  - intros i o d Hi. eexists _, _. split_and!.
    + rewrite list_lookup_fmap. unfold edge in *. by rewrite Hi.
    + apply labels_names_inv_lookup.
    + apply labels_names_inv_lookup.
  - intros i o d o' d' j l Hnd Hi Hr Hl.
    rewrite list_lookup_fmap in Hr. unfold edge in *. rewrite Hi in Hr.
    simpl in Hr. injection Hr as <- <-.
    split; intros Hx; (eapply Hnodup; [done | apply labels_names_inv_lookup | done..]).
Qed.

(** ** Diff renderer *)

Lemma for_each_ret {A S} (body : S → A → result S) (pure : S → A → S) xs s :
  (∀ s' x, x ∈ xs → body s' x = ret (pure s' x)) →
  for_each body xs s = ret (foldl pure s xs).
Proof.
  revert s. induction xs as [|x xs IH]; intros s Hbody; [done|].
  simpl. rewrite Hbody by left. simpl. apply IH. intros s' y Hy. apply Hbody. by right.
Qed.

Lemma foldl_snoc_fmap {A B} (f : A → B) xs (acc : list B) :
  foldl (λ stmts x, stmts ++ [f x]) acc xs = acc ++ (f <$> xs).
Proof.
  revert acc. induction xs as [|x xs IH]; intros acc; csimpl.
  - by rewrite app_nil_r.
  - rewrite IH. by rewrite <- app_assoc.
Qed.

Lemma edge_attributes_of_returns dfg_diff dict_diff_nodes key :
  key ∈ dict_keys dfg_diff →
  edge_attributes_of dfg_diff dict_diff_nodes key
  = ret [("color", edge_color dfg_diff (green dict_diff_nodes) key);
         ("style", "solid"); ("label", "")].
Proof.
  intros Hk. apply dict_get_is_Some in Hk as [st Hst].
  unfold edge_attributes_of, edge_color, dict_item. rewrite Hst.
  destruct (bool_decide _ || bool_decide _); simpl; [done|].
  destruct st; by repeat case_decide.
Qed.

(** Building the graph never raises. *)
Lemma draw_diff_graph_returns dfg_diff dict_diff_nodes name :
  draw_diff_graph dfg_diff dict_diff_nodes name = ret (diff_graph dfg_diff dict_diff_nodes name).
Proof.
  unfold draw_diff_graph.
  rewrite (for_each_ret _ (λ stmts key,
             stmts ++ [edge_stmt dfg_diff (green dict_diff_nodes) key])).
  - simpl. rewrite foldl_snoc_fmap. unfold diff_graph, ret. do 2 f_equal.
    destruct (decide (length dfg_diff = 0)).
    + by rewrite <- app_assoc.
    + by rewrite app_nil_r.
  - intros stmts key Hk. by rewrite edge_attributes_of_returns.
Qed.

Lemma filter_is_edge_nodes (f : string → stmt) (xs : list string) :
  (∀ a, is_edge (f a) = false) → filter is_edge (f <$> xs) = [].
Proof.
  intros Hf. induction xs as [|x xs IH]; [done|]. csimpl.
  rewrite filter_cons_False; [done|]. rewrite Hf. exact id.
Qed.

Lemma filter_is_edge_edges (f : edge → stmt) (xs : list edge) :
  (∀ a, is_edge (f a) = true) → filter is_edge (f <$> xs) = f <$> xs.
Proof.
  intros Hf. induction xs as [|x xs IH]; [done|]. csimpl.
  rewrite filter_cons_True; [by f_equal|]. rewrite Hf. exact I.
Qed.

Lemma edges_of_diff_graph dfg_diff dict_diff_nodes name :
  edges_of (diff_graph dfg_diff dict_diff_nodes name)
  = edge_stmt dfg_diff (green dict_diff_nodes) <$> dict_keys dfg_diff.
Proof.
  unfold edges_of, diff_graph. simpl. rewrite !filter_app.
  rewrite filter_is_edge_nodes by done. rewrite filter_is_edge_edges by done.
  destruct (decide (length dfg_diff = 0)); simpl; by rewrite app_nil_r.
Qed.

(** C8. Edge rendering rule: the graph has one edge per key of the status
    mapping, in order, solid and without label; it is blue when an endpoint
    is in the green node set, otherwise black when the status is [ok],
    otherwise red; the red node set plays no part. *)
Theorem draw_diff_edge_rule (dfg_diff : dict edge status)
    (dict_diff_nodes : dict_diff string) (name : string) :
  ∃ dot, draw_diff_graph dfg_diff dict_diff_nodes name = ret dot
    ∧ length (edges_of dot) = length dfg_diff
    ∧ (∀ i key, dict_keys dfg_diff !! i = Some key →
         ∃ color st, dict_get key dfg_diff = Some st
           ∧ edges_of dot !! i
             = Some (Edge key.1 key.2 [("color", color); ("style", "solid"); ("label", "")])
           ∧ (key.1 ∈ green dict_diff_nodes ∨ key.2 ∈ green dict_diff_nodes → color = blue)
           ∧ (key.1 ∉ green dict_diff_nodes → key.2 ∉ green dict_diff_nodes →
              st = ok → color = "black")
           ∧ (key.1 ∉ green dict_diff_nodes → key.2 ∉ green dict_diff_nodes →
              st ≠ ok → color = "red"))
    ∧ (∀ reds dot',
         draw_diff_graph dfg_diff {| green := green dict_diff_nodes; red := reds |} name
         = ret dot' →
         edges_of dot' = edges_of dot).
Proof.
  exists (diff_graph dfg_diff dict_diff_nodes name).
  split; [apply draw_diff_graph_returns|]. rewrite edges_of_diff_graph. split_and!.
  - unfold dict_keys. by rewrite !length_fmap.
  - intros i key Hi.
    assert (Hk : key ∈ dict_keys dfg_diff) by (apply list_elem_of_lookup; eauto).
    apply dict_get_is_Some in Hk as [st Hst].
    exists (edge_color dfg_diff (green dict_diff_nodes) key), st.
    split; [done|]. split; [by rewrite list_lookup_fmap, Hi|].
    unfold edge_color. rewrite Hst. split_and!.
    + intros [Hg|Hg].
      * by rewrite (bool_decide_eq_true_2 _ Hg).
      * rewrite (bool_decide_eq_true_2 _ Hg). by rewrite orb_true_r.
    + intros H1 H2 ->. by rewrite !bool_decide_eq_false_2 by done.
    + intros H1 H2 Hne. rewrite !bool_decide_eq_false_2 by done. simpl.
      by destruct st.
  - intros reds dot'. rewrite draw_diff_graph_returns. intros [= <-].
    by rewrite edges_of_diff_graph.
Qed.

(** ** Rendering and the outside world *)

Section RenderFacts.
Context `{Outside}.

Lemma run_print {A} (line : string) (k : unit → M A) s :
  (run x <- print line in k x) s
  = k () {| env := env s; stdout := stdout s ++ [line]; render_calls := render_calls s |}.
Proof. done. Qed.

Lemma run_lift_ret {A B} (a : A) (k : A → M B) s : (run x <- lift (ret a) in k x) s = k a s.
Proof. done. Qed.

(** One call of [draw_diff]: the graph of the diff goes to the renderer,
    whose outcome is the outcome of the call. *)
Lemma draw_diff_run dfg_diff dict_diff_nodes name s :
  draw_diff dfg_diff dict_diff_nodes name s
  = let dot := diff_graph dfg_diff dict_diff_nodes name in
    let r := render dot name (env s) in
    if r.1
    then (ret dot, {| env := r.2;
                      stdout := stdout s ++ ["Graph saved as " +:+ name +:+ ".pdf"];
                      render_calls := render_calls s ++ [(name, dot)] |})
    else (raise RenderError, {| env := r.2; stdout := stdout s;
                                render_calls := render_calls s ++ [(name, dot)] |}).
Proof.
  unfold draw_diff. rewrite draw_diff_graph_returns, run_lift_ret.
  unfold mbind_, dot_render. simpl.
  by destruct (render (diff_graph dfg_diff dict_diff_nodes name) name (env s)) as [[] w].
Qed.

Lemma run_draw_diff {A} dfg_diff dict_diff_nodes name (k : Digraph → M A) s :
  (run dot <- draw_diff dfg_diff dict_diff_nodes name in k dot) s
  = let dot := diff_graph dfg_diff dict_diff_nodes name in
    let r := render dot name (env s) in
    if r.1
    then k dot {| env := r.2;
                  stdout := stdout s ++ ["Graph saved as " +:+ name +:+ ".pdf"];
                  render_calls := render_calls s ++ [(name, dot)] |}
    else (raise RenderError, {| env := r.2; stdout := stdout s;
                                render_calls := render_calls s ++ [(name, dot)] |}).
Proof.
  unfold mbind_ at 1. rewrite draw_diff_run. simpl.
  by destruct (render (diff_graph dfg_diff dict_diff_nodes name) name (env s)) as [[] w].
Qed.
End RenderFacts.

(** C7. Empty-diff rendering: for a status mapping without entries the
    renderer builds a graph of exactly one node, the one that says that no
    differences were found, and no edge; that graph is what goes to the
    render call, and the call returns it whenever Graphviz writes it. *)
Theorem draw_diff_empty `{Outside} (dict_diff_nodes : dict_diff string) (name : string)
    (s : state) :
  let dot := {| graph_name := name;
                body := [Node no_differences [("color", "white")]];
                graph_attr := [("ratio", "auto"); ("size", "100,100")] |} in
  draw_diff_graph [] dict_diff_nodes name = ret dot
  ∧ nodes_of dot = [Node no_differences [("color", "white")]]
  ∧ edges_of dot = []
  ∧ render_calls (draw_diff [] dict_diff_nodes name s).2 = render_calls s ++ [(name, dot)]
  ∧ ((render dot name (env s)).1 = true →
     (draw_diff [] dict_diff_nodes name s).1 = ret dot).
Proof.
  intros dot.
  assert (Hg : diff_graph [] dict_diff_nodes name = dot).
  { unfold diff_graph, dot. simpl. by rewrite elements_empty. }
  split_and!.
  - by rewrite draw_diff_graph_returns, Hg.
  - done.
  - done.
  - rewrite draw_diff_run, Hg. simpl. by destruct (render dot name (env s)).1.
  - intros Hok. rewrite draw_diff_run, Hg. simpl. by rewrite Hok.
Qed.

Lemma draw_diff_empty_witness :
  let nodes := {| green := ["B"]; red := [] |} in
  (render (Outside := sample_disk)
     {| graph_name := "out";
        body := [Node no_differences [("color", "white")]];
        graph_attr := [("ratio", "auto"); ("size", "100,100")] |} "out" (env empty_disk)).1
  = true
  ∧ (draw_diff [] nodes "out" empty_disk).1
    = ret {| graph_name := "out";
             body := [Node no_differences [("color", "white")]];
             graph_attr := [("ratio", "auto"); ("size", "100,100")] |}.
Proof.
  intros nodes. split; [reflexivity|].
  apply (draw_diff_empty (H := sample_disk) nodes "out" empty_disk). reflexivity.
Defined.

(** ** The two render calls of [main] *)

Section MainFacts.
Context `{Outside} `{PyFloatOps}.

Lemma pipeline_diff_defined (edges_old edges_new : list edge) :
  diff_defined (from_list_edges_to_dict edges_old) (from_list_edges_to_dict edges_new).
Proof.
  intros k vo vn Hvo _ Hne. by apply from_list_edges_to_dict_value in Hvo.
Qed.

(** The two [draw_diff] calls at the end of [main]. *)
Lemma draw_twice_run (d1 d2 : dict edge status) nodes output_full output_filtered_full s :
  let g1 := diff_graph d1 nodes output_full in
  let g2 := diff_graph d2 nodes output_filtered_full in
  let r1 := render g1 output_full (env s) in
  let r2 := render g2 output_filtered_full r1.2 in
  let out := (run _ <- draw_diff d1 nodes output_full in
              run _ <- print "Filtering differences..." in
              run _ <- draw_diff d2 nodes output_filtered_full in
              print "Process completed.") s in
  (out.1, env out.2, render_calls out.2)
  = if r1.1 then
      (if r2.1 then ret () else raise RenderError, r2.2,
       render_calls s ++ [(output_full, g1); (output_filtered_full, g2)])
    else (raise RenderError, r1.2, render_calls s ++ [(output_full, g1)]).
Proof.
  intros g1 g2 r1 r2 out. subst out. rewrite run_draw_diff. cbv zeta. fold g1 r1.
  destruct r1 as [[] w1] eqn:Hr1; cbn [fst snd]; [|done].
  rewrite run_print, run_draw_diff. cbv zeta. cbn [env stdout render_calls].
  fold g2. subst r2. cbn [snd].
  destruct (render g2 output_filtered_full w1) as [[] w2]; cbn [fst snd];
    unfold print; cbn [fst snd env render_calls]; by rewrite <- app_assoc.
Qed.

(** [main] up to its first render call, and after it. *)
Lemma main_run old new output_full output_filtered_full s :
  let g1 := full_graph old new output_full in
  let g2 := filtered_graph old new output_filtered_full in
  let r1 := render g1 output_full (env s) in
  let r2 := render g2 output_filtered_full r1.2 in
  let out := main old new output_full output_filtered_full s in
  (out.1, env out.2, render_calls out.2)
  = if r1.1 then
      (if r2.1 then ret () else raise RenderError, r2.2,
       render_calls s ++ [(output_full, g1); (output_filtered_full, g2)])
    else (raise RenderError, r1.2, render_calls s ++ [(output_full, g1)]).
Proof.
  intros g1 g2 r1 r2 out. subst out r2 r1 g2 g1.
  unfold main, full_graph, filtered_graph, main_status, main_nodes, resolved_edges.
  cbv zeta. repeat (rewrite run_print; cbn [env stdout render_calls]).
  rewrite (diff_returns _ _ (pipeline_diff_defined _ _)), run_lift_ret.
  destruct (diff_total _ _) as [st dl]. cbn [fst snd].
  generalize (modifica_dfg_result st). intros d1.
  generalize (create_dict_diff
                (unique_el (match_binary_names_labels (edges_origin_dest old)
                              (binary_names old) (labels old)))
                (unique_el (match_binary_names_labels (edges_origin_dest new)
                              (binary_names new) (labels new)))).
  intros nodes. repeat (rewrite run_print; cbn [env stdout render_calls]).
  match goal with
  | |- context [mbind_ (draw_diff _ _ _) _ ?s'] =>
      pose proof (draw_twice_run d1 (imp_edges_modified d1) nodes
                    output_full output_filtered_full s') as Hrun
  end.
  cbv zeta in Hrun. cbn [env render_calls] in Hrun. exact Hrun.
Qed.
End MainFacts.

(** C3, as the specification states it, fails: on a disk where the full
    diagram cannot be written and the filtered one could be, the run ends in
    the RenderError of the first call and the filtered render is never
    called. *)
Lemma main_full_render_failure_skips_filtered :
  let out := main sample_old sample_new "/proc/full" "filtered" empty_disk in
  writable "/proc/full" = false ∧ writable "filtered" = true
  ∧ out.1 = raise RenderError
  ∧ (render_calls out.2).*1 = ["/proc/full"]
  ∧ ¬ "filtered" ∈ (render_calls out.2).*1.
Proof.
  vm_compute. split_and!; try reflexivity.
  intros Hin. apply list_elem_of_singleton in Hin. discriminate.
Qed.

(** C3, amended. [main] calls the renderer for the full diagram first; when
    that call raises, the RenderError ends the run and no render is called for
    the filtered diagram; when it returns, the filtered diagram is rendered
    next, in the world the first call left, and the outcome of that second
    call is the outcome of the run.  [main] touches the world through these
    calls only. *)
Theorem main_render_calls `{Outside} `{PyFloatOps} (old new : parsed)
    (output_full output_filtered_full : string) (s : state) :
  let g1 := full_graph old new output_full in
  let g2 := filtered_graph old new output_filtered_full in
  let r1 := render g1 output_full (env s) in
  let r2 := render g2 output_filtered_full r1.2 in
  let out := main old new output_full output_filtered_full s in
  (r1.1 = false →
     out.1 = raise RenderError
     ∧ render_calls out.2 = render_calls s ++ [(output_full, g1)]
     ∧ env out.2 = r1.2)
  ∧ (r1.1 = true →
     out.1 = (if r2.1 then ret () else raise RenderError)
     ∧ render_calls out.2
       = render_calls s ++ [(output_full, g1); (output_filtered_full, g2)]
     ∧ env out.2 = r2.2).
Proof.
  intros g1 g2 r1 r2 out.
  pose proof (main_run old new output_full output_filtered_full s) as Hrun.
  cbv zeta in Hrun. fold g1 g2 r1 r2 out in Hrun.
  split; intros Hr1; rewrite Hr1 in Hrun; by injection Hrun as -> -> ->.
Qed.

Lemma main_render_calls_witness :
  let out := main sample_old sample_new "full" "/proc/filtered" empty_disk in
  let g1 := full_graph sample_old sample_new "full" in
  let g2 := filtered_graph sample_old sample_new "/proc/filtered" in
  (render g1 "full" (env empty_disk)).1 = true
  ∧ out.1 = raise RenderError
  ∧ render_calls out.2 = [("full", g1); ("/proc/filtered", g2)]
  ∧ dict_get "full.pdf" (env out.2) = Some g1.
Proof.
  intros out g1 g2.
  assert (Hr1 : (render g1 "full" (env empty_disk)).1 = true) by reflexivity.
  split; [exact Hr1|].
  destruct (proj2 (main_render_calls (H := sample_disk) (H0 := binary64_ops)
                     sample_old sample_new "full" "/proc/filtered" empty_disk) Hr1)
    as (Hout & Hcalls & Henv).
  split; [exact Hout|]. split; [exact Hcalls|].
  fold out in Henv. rewrite Henv. reflexivity.
Defined.

(** * Further properties of the program *)

(** A concrete dict has pairwise distinct keys: decided by evaluation. *)
Ltac solve_dict_wf :=
  unfold dict_wf, dict_keys; apply (bool_decide_unpack (NoDup _)); vm_compute; exact I.

(** ** First tokens *)

Lemma first_token_no_space (s : string) : no_space (first_token s) = true.
Proof.
  induction s as [|c s IH]; [done|]. simpl.
  destruct (Ascii.eqb c space) eqn:Hc; [done|]. simpl. by rewrite Hc.
Qed.

Lemma first_token_fixed (s : string) : no_space s = true → first_token s = s.
Proof.
  induction s as [|c s IH]; [done|]. simpl.
  destruct (Ascii.eqb c space); simpl; [done|]. intros Hs. by rewrite IH.
Qed.

(** X1. [s.split(' ')[0]] is the part of [s] before its first space: it has
    no space, it is a prefix of [s], it is [s] itself when [s] has no space,
    and taking it twice is taking it once. *)
Theorem first_token_spec (s : string) :
  no_space (first_token s) = true
  ∧ String.prefix (first_token s) s = true
  ∧ first_token (first_token s) = first_token s
  ∧ (no_space s = true → first_token s = s)
  ∧ (∀ t rest, no_space t = true → s = t +:+ " " +:+ rest → first_token s = t).
Proof.
  split_and!.
  - apply first_token_no_space.
  - induction s as [|c s IH]; [done|]. simpl.
    destruct (Ascii.eqb c space); [done|]. simpl.
    destruct (ascii_dec c c); [done | congruence].
  - apply first_token_fixed, first_token_no_space.
  - apply first_token_fixed.
  - intros t rest Ht ->. induction t as [|c t IH]; [done|]. simpl in *.
    destruct (Ascii.eqb c space); simpl in *; [done|]. by rewrite IH.
Qed.

(** ** Node and edge sets *)

Lemma elem_of_flatten (edges : list edge) (x : string) :
  x ∈ flatten edges ↔ ∃ e, e ∈ edges ∧ (x = e.1 ∨ x = e.2).
Proof.
  unfold flatten. rewrite list_elem_of_bind. split.
  - intros (e & Hx & He). exists e. split; [done|].
    apply elem_of_cons in Hx as [->|Hx]; [by left|].
    apply list_elem_of_singleton in Hx as ->. by right.
  - intros (e & He & [->| ->]); exists e; (split; [|done]); set_solver.
Qed.

(** X2. The unique elements of an edge list are exactly the endpoints of
    its edges, each listed once. *)
Theorem unique_el_spec (edges : list edge) :
  NoDup (unique_el edges)
  ∧ (∀ x, x ∈ unique_el edges ↔ ∃ e, e ∈ edges ∧ (x = e.1 ∨ x = e.2))
  ∧ (edges = [] → unique_el edges = []).
Proof.
  unfold unique_el. split_and!.
  - apply NoDup_elements.
  - intros x. by rewrite elem_of_elements, elem_of_list_to_set, elem_of_flatten.
  - intros ->. simpl. apply elements_empty.
Qed.

(** X3. Edge-diff totality: no edge is both green and red; an edge of
    either list is in both lists and then in neither colour, or only in the
    second list and green, or only in the first and red; nothing else is
    coloured, and no colour lists an edge twice. *)
Theorem create_dict_diff_edges_partition (list1 list2 : list edge) :
  let d := create_dict_diff_edges list1 list2 in
  (∀ e, ¬ (e ∈ green d ∧ e ∈ red d))
  ∧ (∀ e, e ∈ list1 → e ∈ list2 → (e ∉ green d) ∧ (e ∉ red d))
  ∧ (∀ e, e ∉ list1 → e ∈ list2 → (e ∈ green d) ∧ (e ∉ red d))
  ∧ (∀ e, e ∈ list1 → e ∉ list2 → (e ∈ red d) ∧ (e ∉ green d))
  ∧ (∀ e, e ∈ green d ∨ e ∈ red d → e ∈ list1 ∨ e ∈ list2)
  ∧ NoDup (green d) ∧ NoDup (red d).
Proof.
  unfold create_dict_diff_edges. simpl.
  assert (Hg : ∀ e, e ∈ elements (list_to_set list2 ∖ list_to_set list1 : gset edge)
                    ↔ e ∈ list2 ∧ e ∉ list1).
  { intros e. by rewrite elem_of_elements, elem_of_difference, !elem_of_list_to_set. }
  assert (Hr : ∀ e, e ∈ elements (list_to_set list1 ∖ list_to_set list2 : gset edge)
                    ↔ e ∈ list1 ∧ e ∉ list2).
  { intros e. by rewrite elem_of_elements, elem_of_difference, !elem_of_list_to_set. }
  split_and!; try apply NoDup_elements; intros e; rewrite ?Hg, ?Hr; tauto.
Qed.

(** X4. The node diff looks at its arguments as sets: listing the same
    elements in another order, or some of them several times, gives the same
    green and red elements. *)
Theorem create_dict_diff_set_semantics `{Countable T} (A A' B B' : list T) :
  (∀ x, x ∈ A ↔ x ∈ A') → (∀ x, x ∈ B ↔ x ∈ B') →
  green (create_dict_diff A B) ≡ₚ green (create_dict_diff A' B')
  ∧ red (create_dict_diff A B) ≡ₚ red (create_dict_diff A' B').
Proof.
  intros HA HB. unfold create_dict_diff. simpl.
  split; apply NoDup_Permutation; try apply NoDup_elements; intros x;
    rewrite !elem_of_elements, !elem_of_difference, !elem_of_list_to_set, HA, HB; done.
Qed.

Lemma create_dict_diff_set_semantics_witness :
  green (create_dict_diff ["a"; "b"; "a"] ["c"; "b"])
  ≡ₚ green (create_dict_diff ["b"; "a"] ["b"; "c"; "c"])
  ∧ red (create_dict_diff ["a"; "b"; "a"] ["c"; "b"])
    ≡ₚ red (create_dict_diff ["b"; "a"] ["b"; "c"; "c"]).
Proof.
  apply (create_dict_diff_set_semantics ["a"; "b"; "a"] ["b"; "a"] ["c"; "b"] ["b"; "c"; "c"]).
  - intros x. rewrite !elem_of_cons, !elem_of_nil. tauto.
  - intros x. rewrite !elem_of_cons, !elem_of_nil. tauto.
Defined.

(** X5. The node diff is empty on both sides exactly when the two lists
    have the same elements. *)
Theorem create_dict_diff_empty_iff `{Countable T} (A B : list T) :
  (green (create_dict_diff A B) = [] ∧ red (create_dict_diff A B) = [])
  ↔ (∀ x, x ∈ A ↔ x ∈ B).
Proof.
  unfold create_dict_diff. simpl. split.
  - intros [Hg Hr] x.
    apply elements_empty_inv in Hg. apply elements_empty_inv in Hr.
    destruct (decide (x ∈ A)) as [HA|HA], (decide (x ∈ B)) as [HB|HB]; try tauto.
    + exfalso. apply (not_elem_of_empty (C := gset T) x). rewrite <- Hr.
      by rewrite elem_of_difference, !elem_of_list_to_set.
    + exfalso. apply (not_elem_of_empty (C := gset T) x). rewrite <- Hg.
      by rewrite elem_of_difference, !elem_of_list_to_set.
  - intros Hsame.
    assert (Heq : (list_to_set A : gset T) = list_to_set B).
    { apply set_eq. intros x. by rewrite !elem_of_list_to_set. }
    rewrite Heq, difference_diag_L. by rewrite elements_empty.
Qed.

(** ** The directly-follows map of an edge list *)

Lemma length_dict_set {K V} `{EqDecision K} (k : K) (v : V) (d : dict K V) :
  (length (dict_set k v d) ≤ S (length d))%nat.
Proof.
  induction d as [|[k' v'] d IH]; simpl; [lia|].
  destruct (decide (k = k')); simpl; lia.
Qed.

Lemma length_dict_of_pairs {K V} `{EqDecision K} (ps : dict K V) :
  (length (dict_of_pairs ps) ≤ length ps)%nat.
Proof.
  unfold dict_of_pairs.
  cut (∀ acc : dict K V,
         (length (foldl (λ a kv, dict_set kv.1 kv.2 a) acc ps) ≤ length acc + length ps)%nat).
  { intros Hgen. apply (Hgen []). }
  induction ps as [|[k v] ps IH]; intros acc; simpl; [lia|].
  etrans; [apply IH|]. pose proof (length_dict_set k v acc). lia.
Qed.

(** X6. The directly-follows map of an edge list has pairwise distinct
    keys, at most one per edge, none of which holds a space; every edge is
    found again, with the placeholder weight, under the pair of first tokens
    of its endpoints, so edges that differ only behind a space share one
    key. *)
Theorem from_list_edges_to_dict_keys_spec (edges : list edge) :
  let d := from_list_edges_to_dict edges in
  NoDup (dict_keys d)
  ∧ (length d ≤ length edges)%nat
  ∧ (∀ k, k ∈ dict_keys d → no_space k.1 = true ∧ no_space k.2 = true)
  ∧ (∀ e, e ∈ edges →
       dict_get (first_token e.1, first_token e.2) d = Some placeholder)
  ∧ (∀ e e', e ∈ edges → first_token e.1 = first_token e'.1 →
       first_token e.2 = first_token e'.2 →
       dict_get (first_token e'.1, first_token e'.2) d = Some placeholder).
Proof.
  intros d. subst d.
  assert (Hfind : ∀ e, e ∈ edges →
            dict_get (edge_key e) (from_list_edges_to_dict edges) = Some placeholder).
  { intros e He.
    assert (Hk : edge_key e ∈ dict_keys (from_list_edges_to_dict edges))
      by (apply from_list_edges_to_dict_keys; eauto).
    apply dict_get_is_Some in Hk as [v Hv].
    by rewrite Hv, (from_list_edges_to_dict_value _ _ _ Hv). }
  split_and!.
  - rewrite from_list_edges_to_dict_pairs. apply dict_of_pairs_wf.
  - rewrite from_list_edges_to_dict_pairs. etrans; [apply length_dict_of_pairs|].
    by rewrite length_fmap.
  - intros k Hk. apply from_list_edges_to_dict_keys in Hk as (e & _ & ->).
    simpl. by rewrite !first_token_no_space.
  - intros e He. by apply Hfind.
  - intros e e' He H1 H2. rewrite <- H1, <- H2. by apply Hfind.
Qed.

(** ** More on the weighted DFG diff *)

Section DiffMore.
Context `{PyFloatOps} {K : Type} `{EqDecision K}.
Implicit Types (old new : dict K string) (k : K).

Lemma diff_old_step_fails old new acc x e :
  x ∈ dict_keys old → diff_old_step old new acc x = inl e →
  ∃ vo vn, dict_get x old = Some vo ∧ dict_get x new = Some vn
           ∧ vo ≠ placeholder ∧ (float vo = None ∨ float vn = None).
Proof.
  intros Hx Hs. destruct acc as [r rn].
  apply dict_get_is_Some in Hx as [vo Hvo].
  unfold diff_old_step, dict_item, to_float in Hs. rewrite Hvo in Hs. simpl in Hs.
  destruct (dict_mem x new) eqn:Hm; [|done].
  apply dict_mem_true, dict_get_is_Some in Hm as [vn Hvn]. rewrite Hvn in Hs.
  destruct (decide (vo ≠ placeholder)) as [Hne|]; [|done].
  exists vo, vn. split_and!; [done..|].
  destruct (float vo); simpl in Hs; [|by left].
  destruct (float vn); simpl in Hs; [done|by right].
Qed.

Lemma old_loop_fails old new ks acc e :
  (∀ x, x ∈ ks → x ∈ dict_keys old) →
  for_each (diff_old_step old new) ks acc = inl e →
  ∃ k vo vn, dict_get k old = Some vo ∧ dict_get k new = Some vn
             ∧ vo ≠ placeholder ∧ (float vo = None ∨ float vn = None).
Proof.
  revert acc. induction ks as [|x ks IH]; intros acc Hks Hrun; [done|].
  simpl in Hrun. destruct (diff_old_step old new acc x) as [e'|acc'] eqn:Hs; simpl in Hrun.
  - exists x. eapply diff_old_step_fails; [|done]. apply Hks. left.
  - eapply IH; [|done]. intros z Hz. apply Hks. by right.
Qed.

(** The first components of the first loop do not depend on the second. *)
Lemma old_loop_fst old new ks acc :
  (foldl (old_step_pure old new) acc ks).1
  = foldl (λ r x, dict_set x (if dict_mem x new then ok else missing) r) acc.1 ks.
Proof. revert acc. induction ks as [|x ks IH]; intros acc; [done|]. simpl. by rewrite IH. Qed.

Lemma old_loop_snd old new ks acc :
  (foldl (old_step_pure old new) acc ks).2
  = foldl (λ rn x, match delta_of old new x with
                   | Some d => dict_set x d rn
                   | None => rn
                   end) acc.2 ks.
Proof. revert acc. induction ks as [|x ks IH]; intros acc; [done|]. simpl. by rewrite IH. Qed.

(** Assigning to fresh keys, one after the other, appends them in order. *)
Lemma foldl_dict_set_fresh {V} (f : K → V) (ks : list K) (acc : dict K V) :
  NoDup (dict_keys acc ++ ks) →
  foldl (λ a x, dict_set x (f x) a) acc ks = acc ++ ((λ x, (x, f x)) <$> ks).
Proof.
  revert acc. induction ks as [|x ks IH]; intros acc Hnd; csimpl.
  - by rewrite app_nil_r.
  - assert (Hx : x ∉ dict_keys acc).
    { apply NoDup_app in Hnd as (_ & Hdisj & _). intros Hin. apply (Hdisj x Hin). left. }
    rewrite (dict_set_fresh x (f x) acc Hx), IH.
    + by rewrite <- app_assoc.
    + unfold dict_keys in *. rewrite fmap_app. csimpl. by rewrite <- app_assoc.
Qed.

Lemma new_loop_keys old ks (r : dict K status) :
  NoDup ks → (∀ k, k ∈ ks → k ∉ dict_keys old → k ∉ dict_keys r) →
  dict_keys (foldl (diff_new_step old) r ks)
  = dict_keys r ++ filter (λ k, k ∉ dict_keys old) ks.
Proof.
  revert r. induction ks as [|x ks IH]; intros r Hnd Hfresh; csimpl.
  - by rewrite app_nil_r.
  - apply NoDup_cons in Hnd as [Hx Hnd]. unfold diff_new_step at 2.
    destruct (dict_mem x old) eqn:Hm; simpl.
    + apply dict_mem_true in Hm. rewrite filter_cons_False by tauto.
      apply IH; [done|]. intros k Hk. apply Hfresh. by right.
    + apply dict_mem_false in Hm. rewrite filter_cons_True by done.
      rewrite IH; [|done|].
      * rewrite dict_keys_set.
        assert (Hxr : dict_mem x r = false) by (apply dict_mem_false, Hfresh; [left|done]).
        rewrite Hxr. by rewrite <- app_assoc.
      * intros k Hk Hko. rewrite elem_of_dict_keys_set. intros [->|Hkr]; [done|].
        revert Hkr. apply Hfresh; [by right|done].
Qed.
End DiffMore.

(** X7. The only way [diff] fails is the ValueError of a conversion, and it
    fails exactly when some key of both maps has an old weight other than the
    placeholder and [float] rejects that weight or the new one; it never
    raises a KeyError. *)
Theorem diff_raises_exactly `{PyFloatOps} {K : Type} `{EqDecision K}
    (old new : dict K string) :
  (∀ e, diff old new = inl e → e = ValueError ∧ conversion_fails old new)
  ∧ (conversion_fails old new → diff old new = raise ValueError).
Proof.
  split.
  - intros e Hrun. split; [by eapply diff_raises|].
    unfold diff in Hrun.
    destruct (for_each _ _ _) as [e'|[r rn]] eqn:Hloop; [|done].
    by eapply old_loop_fails.
  - intros (k & vo & vn & Hvo & Hvn & Hne & Hbad).
    destruct (diff old new) as [e|res] eqn:Hrun.
    + by rewrite (diff_raises _ _ _ Hrun).
    + destruct (diff_returns_inv _ _ _ Hrun k vo vn Hvo Hvn Hne) as [[a Ha] [b Hb]].
      destruct Hbad; congruence.
Qed.

Lemma diff_raises_exactly_witness :
  let old : dict edge string := [(("A", "B"), "7"); (("B", "C"), "three")] in
  let new : dict edge string := [(("B", "C"), "3"); (("A", "B"), "-")] in
  conversion_fails old new ∧ diff old new = raise ValueError.
Proof.
  intros old new.
  assert (Hbad : conversion_fails old new).
  { exists ("A", "B"), "7", "-". split_and!; [reflexivity | reflexivity | discriminate |].
    right. reflexivity. }
  split; [exact Hbad|]. exact (proj2 (diff_raises_exactly old new) Hbad).
Defined.

(** X8. What the delta mapping holds when [diff] returns: the empty marker
    for a key of [old] only, nothing for a key of both maps whose old weight
    is the placeholder (its status is [ok] all the same), nothing for a key
    that is not in [old], and a number only for a key of both maps with a
    convertible old weight other than the placeholder. *)
Theorem diff_delta_entries `{PyFloatOps} {K : Type} `{EqDecision K}
    (old new : dict K string) (st : dict K status) (dl : dict K delta) :
  diff old new = ret (st, dl) →
  (∀ k, k ∈ dict_keys old → k ∉ dict_keys new → dict_get k dl = Some DeltaEmpty)
  ∧ (∀ k, dict_get k old = Some placeholder → k ∈ dict_keys new →
       dict_get k dl = None ∧ dict_get k st = Some ok)
  ∧ (∀ k, k ∉ dict_keys old → dict_get k dl = None)
  ∧ (∀ k x, dict_get k dl = Some (DeltaNum x) →
       ∃ vo vn a b, dict_get k old = Some vo ∧ dict_get k new = Some vn
                    ∧ vo ≠ placeholder ∧ float vo = Some a ∧ float vn = Some b
                    ∧ x = round3 (float_sub a b))
  ∧ NoDup (dict_keys dl).
Proof.
  intros Hrun. destruct (diff_lookup old new st dl Hrun) as (Hst & Hdl & _ & Hwf).
  split_and!.
  - intros k Ho Hn. rewrite Hdl. unfold delta_of.
    apply dict_get_is_Some in Ho as [vo ->]. apply dict_get_None in Hn. by rewrite Hn.
  - intros k Ho Hn. rewrite Hdl, Hst. unfold delta_of, status_of.
    assert (Hmo : dict_mem k old = true) by (apply dict_mem_true, dict_get_is_Some; eauto).
    apply dict_mem_true in Hn as Hmn. rewrite Ho, Hmo, Hmn.
    apply dict_get_is_Some in Hn as [vn ->].
    by rewrite decide_False by (intros Hne; by apply Hne).
  - intros k Ho. rewrite Hdl. unfold delta_of. apply dict_get_None in Ho. by rewrite Ho.
  - intros k x. rewrite Hdl. unfold delta_of.
    destruct (dict_get k old) as [vo|]; [|done].
    destruct (dict_get k new) as [vn|]; [|done].
    destruct (decide (vo ≠ placeholder)) as [Hne|]; [|done].
    destruct (float vo) as [a|] eqn:Ha; [|done].
    destruct (float vn) as [b|] eqn:Hb; [|done].
    intros [= <-]. by exists vo, vn, a, b.
  - exact Hwf.
Qed.

Lemma diff_delta_entries_witness :
  let old : dict edge string := [(("A", "B"), "-"); (("B", "C"), "4"); (("C", "D"), "1.5")] in
  let new : dict edge string := [(("A", "B"), "9"); (("C", "D"), "0.25"); (("D", "E"), "2")] in
  ∃ st dl, diff old new = ret (st, dl)
    ∧ dict_get ("B", "C") dl = Some DeltaEmpty
    ∧ dict_get ("A", "B") dl = None ∧ dict_get ("A", "B") st = Some ok
    ∧ dict_get ("D", "E") dl = None.
Proof.
  intros old new.
  assert (Hd : diff_defined old new) by (apply diff_defined_by_run; vm_compute; exact I).
  pose proof (diff_returns old new Hd) as Hrun.
  destruct (diff_total old new) as [st dl].
  destruct (diff_delta_entries old new st dl Hrun) as (H1 & H2 & H3 & _).
  exists st, dl. split; [exact Hrun|]. split_and!.
  - apply H1; [set_solver|]. unfold dict_keys. simpl. rewrite !not_elem_of_cons.
    split_and!; try discriminate. apply not_elem_of_nil.
  - apply H2; [reflexivity | set_solver].
  - apply H2; [reflexivity | set_solver].
  - apply H3. unfold dict_keys. simpl. rewrite !not_elem_of_cons.
    split_and!; try discriminate. apply not_elem_of_nil.
Defined.

(** X9. The status mapping lists the keys of [old] first, in the order of
    [old], and after them the keys that only [new] has, in the order of
    [new]. *)
Theorem diff_status_order `{PyFloatOps} {K : Type} `{EqDecision K}
    (old new : dict K string) (st : dict K status) (dl : dict K delta) :
  dict_wf old → dict_wf new → diff old new = ret (st, dl) →
  dict_keys st = dict_keys old ++ filter (λ k, k ∉ dict_keys old) (dict_keys new).
Proof.
  intros Ho Hn Hrun. pose proof (diff_returns_inv _ _ _ Hrun) as Hd.
  rewrite (diff_returns _ _ Hd) in Hrun. injection Hrun as <- _.
  assert (Hfirst : dict_keys (foldl (old_step_pure old new) ([], []) (dict_keys old)).1
                   = dict_keys old).
  { rewrite old_loop_fst. simpl. rewrite foldl_dict_set_fresh by done. simpl.
    unfold dict_keys. rewrite <- list_fmap_compose. apply list_fmap_id. }
  rewrite new_loop_keys; [by rewrite Hfirst | done |].
  intros k _ Hk. by rewrite Hfirst.
Qed.

Lemma diff_status_order_witness :
  let old : dict edge string := [(("A", "B"), "-"); (("B", "C"), "4")] in
  let new : dict edge string := [(("D", "E"), "2"); (("A", "B"), "9"); (("C", "D"), "1")] in
  dict_wf old ∧ dict_wf new
  ∧ ∃ st dl, diff old new = ret (st, dl)
      ∧ dict_keys st = [("A", "B"); ("B", "C"); ("D", "E"); ("C", "D")].
Proof.
  intros old new.
  assert (Ho : dict_wf old) by solve_dict_wf.
  assert (Hn : dict_wf new) by solve_dict_wf.
  assert (Hd : diff_defined old new) by (apply diff_defined_by_run; vm_compute; exact I).
  pose proof (diff_returns old new Hd) as Hrun.
  destruct (diff_total old new) as [st dl].
  split; [exact Ho|]. split; [exact Hn|]. exists st, dl. split; [exact Hrun|].
  rewrite (diff_status_order old new st dl Ho Hn Hrun). vm_compute. reflexivity.
Defined.

(** X10. Exchanging the two maps exchanges [missing] and [extra] and keeps
    [ok]. *)
Theorem diff_swap `{PyFloatOps} {K : Type} `{EqDecision K}
    (old new : dict K string) (st st' : dict K status) (dl dl' : dict K delta) :
  diff old new = ret (st, dl) → diff new old = ret (st', dl') →
  ∀ k, dict_get k st' = swap_status <$> dict_get k st.
Proof.
  intros Hrun Hrun' k.
  destruct (diff_lookup old new st dl Hrun) as (Hst & _).
  destruct (diff_lookup new old st' dl' Hrun') as (Hst' & _).
  rewrite Hst, Hst'. unfold status_of.
  by destruct (dict_mem k old), (dict_mem k new).
Qed.

Lemma diff_swap_witness :
  let old : dict edge string := [(("A", "B"), "-"); (("B", "C"), "4")] in
  let new : dict edge string := [(("A", "B"), "-"); (("C", "D"), "1")] in
  ∃ st dl st' dl', diff old new = ret (st, dl) ∧ diff new old = ret (st', dl')
    ∧ dict_get ("B", "C") st' = swap_status <$> dict_get ("B", "C") st.
Proof.
  intros old new.
  assert (Hd : diff_defined old new) by (apply diff_defined_by_run; vm_compute; exact I).
  assert (Hd' : diff_defined new old) by (apply diff_defined_by_run; vm_compute; exact I).
  pose proof (diff_returns old new Hd) as Hrun.
  pose proof (diff_returns new old Hd') as Hrun'.
  destruct (diff_total old new) as [st dl]. destruct (diff_total new old) as [st' dl'].
  exists st, dl, st', dl'. split; [exact Hrun|]. split; [exact Hrun'|].
  exact (diff_swap old new st st' dl dl' Hrun Hrun' ("B", "C")).
Defined.

Lemma old_loop_empty_new `{PyFloatOps} {K : Type} `{EqDecision K}
    (old : dict K string) (ks : list K) acc :
  (∀ x, x ∈ ks → x ∈ dict_keys old) →
  foldl (old_step_pure old []) acc ks
  = (foldl (λ a x, dict_set x missing a) acc.1 ks,
     foldl (λ a x, dict_set x DeltaEmpty a) acc.2 ks).
Proof.
  revert acc. induction ks as [|x ks IH]; intros acc Hks; [by destruct acc|].
  simpl. rewrite IH by (intros z Hz; apply Hks; by right). simpl.
  assert (Hx : x ∈ dict_keys old) by (apply Hks; left).
  apply dict_get_is_Some in Hx as [vo Hvo]. unfold delta_of. by rewrite Hvo.
Qed.

Lemma new_loop_empty_old {K : Type} `{EqDecision K} (ks : list K) (r : dict K status) :
  foldl (diff_new_step ([] : dict K string)) r ks = foldl (λ a x, dict_set x extra a) r ks.
Proof. revert r. induction ks as [|x ks IH]; intros r; [done|]. simpl. by rewrite IH. Qed.

(** X11. Against an empty map [diff] never fails: with nothing new every
    key of [old] is [missing] and carries the empty marker, with nothing old
    every key of [new] is [extra] and the delta mapping is empty; the keys keep
    their order. *)
Theorem diff_with_empty_map `{PyFloatOps} {K : Type} `{EqDecision K} :
  (∀ old : dict K string, dict_wf old →
     diff old [] = ret ((λ kv, (kv.1, missing)) <$> old,
                        (λ kv, (kv.1, DeltaEmpty)) <$> old))
  ∧ (∀ new : dict K string, dict_wf new →
       diff [] new = ret ((λ kv, (kv.1, extra)) <$> new, [])).
Proof.
  split.
  - intros old Ho.
    assert (Hd : diff_defined old []) by (by intros k vo vn _ Hvn).
    rewrite (diff_returns _ _ Hd). unfold diff_total. simpl.
    rewrite old_loop_empty_new by done. simpl.
    rewrite !foldl_dict_set_fresh by done. simpl.
    unfold dict_keys. by rewrite <- !list_fmap_compose.
  - intros new Hn.
    assert (Hd : diff_defined ([] : dict K string) new) by (by intros k vo vn Hvo).
    rewrite (diff_returns _ _ Hd). unfold diff_total. simpl.
    rewrite new_loop_empty_old, foldl_dict_set_fresh by done. simpl.
    unfold dict_keys. by rewrite <- !list_fmap_compose.
Qed.

Lemma diff_with_empty_map_witness :
  let old : dict edge string := [(("A", "B"), "x"); (("B", "C"), "4")] in
  dict_wf old
  ∧ diff old [] = ret ([(("A", "B"), missing); (("B", "C"), missing)],
                       [(("A", "B"), DeltaEmpty); (("B", "C"), DeltaEmpty)])
  ∧ diff [] old = ret ([(("A", "B"), extra); (("B", "C"), extra)], []).
Proof.
  intros old.
  assert (Ho : dict_wf old) by solve_dict_wf.
  split; [exact Ho|]. split.
  - exact (proj1 diff_with_empty_map old Ho).
  - exact (proj2 diff_with_empty_map old Ho).
Defined.

(** ** The filter *)

Lemma imp_edges_modified_from {K} `{EqDecision K} (d acc : dict K status) :
  NoDup (dict_keys acc ++ dict_keys d) →
  foldl (λ new_dfg_diff kv, if decide (kv.2 ≠ ok) then dict_set kv.1 kv.2 new_dfg_diff
                            else new_dfg_diff) acc d
  = acc ++ filter (λ kv, kv.2 ≠ ok) d.
Proof.
  revert acc. induction d as [|[k v] d IH]; intros acc Hnd; csimpl.
  - by rewrite app_nil_r.
  - unfold dict_keys in Hnd. csimpl in Hnd.
    assert (Hk : k ∉ dict_keys acc).
    { apply NoDup_app in Hnd as (_ & Hdisj & _). intros Hin. apply (Hdisj k Hin). left. }
    destruct (decide (v ≠ ok)) as [Hv|Hv].
    + rewrite filter_cons_True by done. rewrite (dict_set_fresh k v acc Hk), IH.
      * by rewrite <- app_assoc.
      * unfold dict_keys. rewrite fmap_app. csimpl. by rewrite <- app_assoc.
    + rewrite filter_cons_False by done. apply IH.
      apply NoDup_app in Hnd as (Ha & Hdisj & Hd). apply NoDup_cons in Hd as [_ Hd].
      apply NoDup_app. split_and!; [done| |done].
      intros x Hx Hx'. apply (Hdisj x Hx). by right.
Qed.

Lemma filter_not_ok_wf {K} `{EqDecision K} (d : dict K status) :
  dict_wf d → dict_wf (filter (λ kv, kv.2 ≠ ok) d).
Proof.
  unfold dict_wf, dict_keys. intros Hd. apply (sublist_NoDup _ _ Hd).
  apply fmap_sublist, sublist_filter.
Qed.

Lemma filter_not_ok_twice {K} (d : dict K status) :
  filter (λ kv, kv.2 ≠ ok) (filter (λ kv, kv.2 ≠ ok) d) = filter (λ kv, kv.2 ≠ ok) d.
Proof.
  induction d as [|[k v] d IH]; [done|].
  destruct (decide (v ≠ ok)) as [Hv|Hv].
  - rewrite (filter_cons_True _ (k, v) d) by done. rewrite filter_cons_True by done.
    by rewrite IH.
  - by rewrite (filter_cons_False _ (k, v) d) by done.
Qed.

(** X12. On a status mapping the filter keeps, in their order and with
    their statuses, exactly the entries whose status is not [ok]; filtering
    twice is filtering once. *)
Theorem imp_edges_modified_filter {K} `{EqDecision K} (d : dict K status) :
  dict_wf d →
  imp_edges_modified d = filter (λ kv, kv.2 ≠ ok) d
  ∧ (∀ k v, dict_get k (imp_edges_modified d) = Some v ↔ dict_get k d = Some v ∧ v ≠ ok)
  ∧ imp_edges_modified (imp_edges_modified d) = imp_edges_modified d
  ∧ (d = [] → imp_edges_modified d = []).
Proof.
  intros Hwf.
  assert (Heq : ∀ d' : dict K status, dict_wf d' →
            imp_edges_modified d' = filter (λ kv, kv.2 ≠ ok) d').
  { intros d' Hd'. unfold imp_edges_modified. by rewrite imp_edges_modified_from. }
  split_and!.
  - by apply Heq.
  - intros k v. rewrite (Heq d Hwf). split.
    + intros Hg. apply dict_get_elem_of, list_elem_of_filter in Hg as [Hv Hin].
      split; [by apply dict_get_wf | done].
    + intros [Hg Hv]. apply dict_get_wf; [by apply filter_not_ok_wf|].
      apply list_elem_of_filter. split; [done | by apply dict_get_elem_of].
  - rewrite (Heq d Hwf), (Heq _ (filter_not_ok_wf d Hwf)). apply filter_not_ok_twice.
  - by intros ->.
Qed.

Lemma imp_edges_modified_filter_witness :
  let d : dict edge status :=
    [(("Start", "A"), ok); (("A", "End"), missing); (("A", "B"), extra)] in
  dict_wf d
  ∧ imp_edges_modified d = [(("A", "End"), missing); (("A", "B"), extra)].
Proof.
  intros d. assert (Hwf : dict_wf d) by solve_dict_wf.
  split; [exact Hwf|].
  rewrite (proj1 (imp_edges_modified_filter d Hwf)). reflexivity.
Defined.

(** ** More on the canonicalizer *)

Lemma canon_item_not_sentinel (item : string) : ¬ is_sentinel (canon_item item).
Proof.
  unfold is_sentinel, canon_item. repeat case_decide; intros [?|?]; congruence.
Qed.

Lemma canon_item_fixed (item : string) : ¬ is_sentinel item → canon_item item = item.
Proof.
  unfold is_sentinel, canon_item. intros Hs. repeat case_decide; tauto.
Qed.

(** X13. No key of a canonicalized mapping holds a sentinel any more:
    neither endpoint of a 2-tuple key, and no item of a key of any length, is
    [@@S] or [@@E]. *)
Theorem modifica_dfg_result_no_sentinel {V : Type} :
  (∀ (d : dict edge V) k, k ∈ dict_keys (modifica_dfg_result d) →
     ¬ is_sentinel k.1 ∧ ¬ is_sentinel k.2)
  ∧ (∀ (d : dict (list string) V) k item,
       k ∈ dict_keys (modifica_dfg_result_tuple d) → item ∈ k → ¬ is_sentinel item).
Proof.
  split.
  - intros d k Hk. apply rekey_keys in Hk as (k0 & _ & ->). simpl.
    split; apply canon_item_not_sentinel.
  - intros d k item Hk Hitem. apply rekey_keys in Hk as (k0 & _ & ->).
    unfold canon_tuple in Hitem. apply list_elem_of_fmap in Hitem as (x & -> & _).
    apply canon_item_not_sentinel.
Qed.

(** X14. A mapping whose keys hold no sentinel is left as it is. *)
Theorem modifica_dfg_result_identity {V : Type} (d : dict edge V) :
  dict_wf d →
  (∀ k, k ∈ dict_keys d → ¬ is_sentinel k.1 ∧ ¬ is_sentinel k.2) →
  modifica_dfg_result d = d.
Proof.
  intros Hwf Hkeys. unfold modifica_dfg_result, rekey.
  assert (Hfix : (λ kv : edge * V, (canon_edge kv.1, kv.2)) <$> d = d).
  { rewrite <- (list_fmap_id d) at 2. apply Forall_fmap_ext, Forall_forall.
    intros [[a b] v] Hin. simpl.
    destruct (Hkeys (a, b)) as [Ha Hb].
    { apply list_elem_of_fmap. by exists ((a, b), v). }
    unfold canon_edge. simpl in *. by rewrite !canon_item_fixed. }
  rewrite Hfix. by apply dict_of_pairs_id.
Qed.

Lemma modifica_dfg_result_identity_witness :
  let d : dict edge status := [(("Start", "A"), ok); (("A", "End"), missing)] in
  dict_wf d ∧ modifica_dfg_result d = d.
Proof.
  intros d. assert (Hwf : dict_wf d) by solve_dict_wf.
  split; [exact Hwf|]. apply (modifica_dfg_result_identity d Hwf).
  intros k Hk. unfold dict_keys in Hk. simpl in Hk.
  apply elem_of_cons in Hk as [->|Hk]; [|apply list_elem_of_singleton in Hk as ->];
    simpl; unfold is_sentinel; split; intros [?|?]; discriminate.
Defined.

(** X15. When several keys become the same canonical key, the mapping keeps
    one entry for it, with the value of the last of them; the canonicalized
    mapping has at most as many entries as the input. *)
Theorem modifica_dfg_result_last_wins {V : Type} (d : dict edge V) (j : nat)
    (k0 : edge) (v : V) :
  d !! j = Some (k0, v) →
  (∀ j' k' v', j < j' → d !! j' = Some (k', v') →
     (canon_item k'.1, canon_item k'.2) ≠ (canon_item k0.1, canon_item k0.2)) →
  dict_get (canon_item k0.1, canon_item k0.2) (modifica_dfg_result d) = Some v
  ∧ (length (modifica_dfg_result d) ≤ length d)%nat.
Proof.
  intros Hj Hlast. unfold modifica_dfg_result, rekey. split.
  - rewrite dict_get_of_pairs. apply (dict_get_reverse_last _ _ _ j).
    + by rewrite list_lookup_fmap, Hj.
    + intros j' p Hlt Hp. rewrite list_lookup_fmap in Hp.
      destruct (d !! j') as [[k' v']|] eqn:Hd; [|done]. injection Hp as <-. simpl.
      by apply (Hlast j' k' v').
  - etrans; [apply length_dict_of_pairs|]. by rewrite length_fmap.
Qed.

Lemma modifica_dfg_result_last_wins_witness :
  let d : dict edge status :=
    [(("@@S", "A"), ok); (("A", "@@E"), extra); (("Start", "A"), missing)] in
  d !! 2 = Some (("Start", "A"), missing)
  ∧ dict_get ("Start", "A") (modifica_dfg_result d) = Some missing.
Proof.
  intros d. split; [reflexivity|].
  apply (modifica_dfg_result_last_wins d 2 ("Start", "A") missing); [reflexivity|].
  intros j' k' v' Hlt Hj'. destruct j' as [|[|[|j']]]; try lia. discriminate.
Defined.

(** ** More on the diff renderer *)

Lemma omap_node_names_nodes (f : string → dict string string) (xs : list string) :
  omap stmt_node_name ((λ a, Node a (f a)) <$> xs) = xs.
Proof. induction xs as [|x xs IH]; [done|]. csimpl. by rewrite IH. Qed.

Lemma omap_node_names_edges (f : edge → stmt) (xs : list edge) :
  (∀ key, stmt_node_name (f key) = None) → omap stmt_node_name (f <$> xs) = [].
Proof. intros Hf. induction xs as [|x xs IH]; [done|]. csimpl. by rewrite Hf. Qed.

Lemma filter_is_node_nodes (f : string → stmt) (xs : list string) :
  (∀ a, is_node (f a) = true) → filter is_node (f <$> xs) = f <$> xs.
Proof.
  intros Hf. induction xs as [|x xs IH]; [done|]. csimpl.
  rewrite filter_cons_True; [by f_equal|]. rewrite Hf. exact I.
Qed.

Lemma filter_is_node_edges (f : edge → stmt) (xs : list edge) :
  (∀ key, is_node (f key) = false) → filter is_node (f <$> xs) = [].
Proof.
  intros Hf. induction xs as [|x xs IH]; [done|]. csimpl.
  rewrite filter_cons_False; [done|]. rewrite Hf. exact id.
Qed.

Lemma node_names_diff_graph dfg_diff dict_diff_nodes name :
  node_names (diff_graph dfg_diff dict_diff_nodes name)
  = elements (list_to_set (C := gset string) (flatten (dict_keys dfg_diff)))
    ++ (if decide (length dfg_diff = 0) then [no_differences] else []).
Proof.
  unfold node_names, diff_graph. simpl. rewrite !omap_app.
  unfold node_stmt. rewrite omap_node_names_nodes, omap_node_names_edges by done.
  by destruct (decide (length dfg_diff = 0)).
Qed.

Lemma elem_of_body_diff_graph_node dfg_diff dict_diff_nodes name a :
  a ∈ flatten (dict_keys dfg_diff) →
  Node a (node_attributes_of dict_diff_nodes a)
    ∈ body (diff_graph dfg_diff dict_diff_nodes name).
Proof.
  intros Ha. unfold diff_graph. simpl. apply elem_of_app. left.
  apply list_elem_of_fmap. exists a. split; [done|].
  by apply elem_of_elements, elem_of_list_to_set.
Qed.

(** X16. Node rendering rule: every endpoint of a key gets a node statement;
    [Start] is a green circle and [End] an orange circle with a white border,
    both small and without text, whatever the node diff says; any other node
    is a white box, with a blue border of width 2 when it is in the green
    list, otherwise a red one when it is in the red list, otherwise no border
    colour. *)
Theorem draw_diff_node_rule (dfg_diff : dict edge status)
    (dict_diff_nodes : dict_diff string) (name : string) :
  ∃ dot, draw_diff_graph dfg_diff dict_diff_nodes name = ret dot
    ∧ ∀ key a, key ∈ dict_keys dfg_diff → a = key.1 ∨ a = key.2 →
        ∃ attrs, Node a attrs ∈ body dot
          ∧ (a = "Start" →
               dict_get "fillcolor" attrs = Some "#32CD32"
               ∧ dict_get "shape" attrs = Some "circle"
               ∧ dict_get "width" attrs = Some "0.75"
               ∧ dict_get "label" attrs = Some ""
               ∧ dict_get "color" attrs = None)
          ∧ (a = "End" →
               dict_get "fillcolor" attrs = Some "#FFA500"
               ∧ dict_get "shape" attrs = Some "circle"
               ∧ dict_get "width" attrs = Some "0.75"
               ∧ dict_get "label" attrs = Some ""
               ∧ dict_get "color" attrs = Some "#FFFFFF")
          ∧ (a ≠ "Start" → a ≠ "End" →
               dict_get "fillcolor" attrs = Some "white"
               ∧ dict_get "shape" attrs = Some "box"
               ∧ dict_get "label" attrs = None
               ∧ (a ∈ green dict_diff_nodes →
                    dict_get "color" attrs = Some blue
                    ∧ dict_get "penwidth" attrs = Some "2")
               ∧ (a ∉ green dict_diff_nodes → a ∈ red dict_diff_nodes →
                    dict_get "color" attrs = Some node_red
                    ∧ dict_get "penwidth" attrs = Some "2")
               ∧ (a ∉ green dict_diff_nodes → a ∉ red dict_diff_nodes →
                    dict_get "color" attrs = None
                    ∧ dict_get "penwidth" attrs = None)).
Proof.
  exists (diff_graph dfg_diff dict_diff_nodes name).
  split; [apply draw_diff_graph_returns|]. intros key a Hkey Ha.
  exists (node_attributes_of dict_diff_nodes a). split.
  { apply elem_of_body_diff_graph_node, elem_of_flatten. eauto. }
  split_and!.
  - intros ->. by split_and!.
  - intros ->. by split_and!.
  - intros HS HE. unfold node_attributes_of. rewrite !decide_False by done.
    destruct (bool_decide (a ∈ green dict_diff_nodes)) eqn:Hg.
    + apply bool_decide_eq_true in Hg. by split_and!.
    + apply bool_decide_eq_false in Hg.
      destruct (bool_decide (a ∈ red dict_diff_nodes)) eqn:Hr.
      * apply bool_decide_eq_true in Hr. by split_and!.
      * apply bool_decide_eq_false in Hr. by split_and!.
Qed.

(** X17. The graph of a diff draws every endpoint once and leaves no edge
    dangling: the node statements come first and name, without repetition,
    exactly the endpoints of the keys (and the informational node exactly when
    there is no key); both ends of every edge statement are among them; the
    graph attributes are always the automatic ratio and the 100 by 100
    size. *)
Theorem draw_diff_graph_shape (dfg_diff : dict edge status)
    (dict_diff_nodes : dict_diff string) (name : string) :
  ∃ dot, draw_diff_graph dfg_diff dict_diff_nodes name = ret dot
    ∧ body dot = nodes_of dot ++ edges_of dot
    ∧ NoDup (node_names dot)
    ∧ (∀ a, a ∈ node_names dot
            ↔ (∃ key, key ∈ dict_keys dfg_diff ∧ (a = key.1 ∨ a = key.2))
              ∨ (dfg_diff = [] ∧ a = no_differences))
    ∧ (∀ t h attrs, Edge t h attrs ∈ body dot → t ∈ node_names dot ∧ h ∈ node_names dot)
    ∧ graph_name dot = name
    ∧ graph_attr dot = [("ratio", "auto"); ("size", "100,100")].
Proof.
  exists (diff_graph dfg_diff dict_diff_nodes name).
  split; [apply draw_diff_graph_returns|].
  assert (Hnames : ∀ a, a ∈ node_names (diff_graph dfg_diff dict_diff_nodes name)
            ↔ (∃ key, key ∈ dict_keys dfg_diff ∧ (a = key.1 ∨ a = key.2))
              ∨ (dfg_diff = [] ∧ a = no_differences)).
  { intros a. rewrite node_names_diff_graph, elem_of_app, elem_of_elements,
      elem_of_list_to_set, elem_of_flatten.
    destruct dfg_diff as [|kv d]; simpl.
    - rewrite list_elem_of_singleton. naive_solver.
    - rewrite elem_of_nil. naive_solver. }
  split_and!.
  - rewrite edges_of_diff_graph. unfold nodes_of, diff_graph. simpl.
    rewrite !filter_app.
    assert (Hn : filter is_node (node_stmt dict_diff_nodes <$>
                   elements (list_to_set (C := gset string) (flatten (dict_keys dfg_diff))))
                 = node_stmt dict_diff_nodes <$>
                   elements (list_to_set (C := gset string) (flatten (dict_keys dfg_diff)))).
    { by apply filter_is_node_nodes. }
    assert (He : filter is_node (edge_stmt dfg_diff (green dict_diff_nodes)
                                   <$> dict_keys dfg_diff) = []).
    { by apply filter_is_node_edges. }
    rewrite Hn, He. destruct dfg_diff as [|kv d]; simpl.
    + by rewrite elements_empty.
    + by rewrite !app_nil_r.
  - rewrite node_names_diff_graph. destruct dfg_diff as [|kv d]; simpl.
    + rewrite elements_empty. apply NoDup_singleton.
    + rewrite app_nil_r. apply NoDup_elements.
  - exact Hnames.
  - intros t h attrs Hin. unfold diff_graph in Hin. simpl in Hin.
    rewrite !elem_of_app in Hin. destruct Hin as [Hin|[Hin|Hin]].
    + apply list_elem_of_fmap in Hin as (a & [=] & _).
    + apply list_elem_of_fmap in Hin as (key & [= -> -> _] & Hkey).
      split; apply Hnames; left; exists key; eauto.
    + destruct (decide (length dfg_diff = 0)); [|by apply elem_of_nil in Hin].
      by apply list_elem_of_singleton in Hin.
  - done.
  - done.
Qed.

(** X18. One call of [draw_diff] is one call of the renderer, with the graph
    of the diff; when the renderer returns, the call prints the name of the
    file and returns the graph; when it raises, the call ends in a
    RenderError and prints nothing. *)
Theorem draw_diff_effects `{Outside} (dfg_diff : dict edge status)
    (dict_diff_nodes : dict_diff string) (name : string) (s : state) :
  ∃ dot, draw_diff_graph dfg_diff dict_diff_nodes name = ret dot
    ∧ let out := draw_diff dfg_diff dict_diff_nodes name s in
      render_calls out.2 = render_calls s ++ [(name, dot)]
      ∧ env out.2 = (render dot name (env s)).2
      ∧ ((render dot name (env s)).1 = true →
           out.1 = ret dot
           ∧ stdout out.2 = stdout s ++ ["Graph saved as " +:+ name +:+ ".pdf"])
      ∧ ((render dot name (env s)).1 = false →
           out.1 = raise RenderError ∧ stdout out.2 = stdout s).
Proof.
  exists (diff_graph dfg_diff dict_diff_nodes name).
  split; [apply draw_diff_graph_returns|]. cbv zeta. rewrite draw_diff_run. cbv zeta.
  destruct (render (diff_graph dfg_diff dict_diff_nodes name) name (env s)) as [[] w];
    simpl; by split_and!.
Qed.

Lemma draw_diff_effects_witness :
  let d : dict edge status := [(("A", "B"), extra)] in
  let nodes := {| green := ["B"]; red := [] |} in
  ∃ dot, draw_diff_graph d nodes "/proc/out" = ret dot
    ∧ (render dot "/proc/out" (env empty_disk)).1 = false
    ∧ (draw_diff d nodes "/proc/out" empty_disk).1 = raise RenderError
    ∧ stdout (draw_diff d nodes "/proc/out" empty_disk).2 = [].
Proof.
  intros d nodes.
  destruct (draw_diff_effects (H := sample_disk) d nodes "/proc/out" empty_disk)
    as (dot & Hdot & _ & _ & _ & Hfail).
  assert (Hr : (render dot "/proc/out" (env empty_disk)).1 = false) by reflexivity.
  exists dot. split; [exact Hdot|]. split; [exact Hr|]. exact (Hfail Hr).
Defined.

(** ** More on [main] *)

Section MainMore.
Context `{Outside} `{PyFloatOps}.

Lemma draw_twice_stdout (d1 d2 : dict edge status) nodes output_full output_filtered_full s :
  let g1 := diff_graph d1 nodes output_full in
  let g2 := diff_graph d2 nodes output_filtered_full in
  let r1 := render g1 output_full (env s) in
  let r2 := render g2 output_filtered_full r1.2 in
  let out := (run _ <- draw_diff d1 nodes output_full in
              run _ <- print "Filtering differences..." in
              run _ <- draw_diff d2 nodes output_filtered_full in
              print "Process completed.") s in
  stdout out.2
  = stdout s
    ++ (if r1.1 then
          ["Graph saved as " +:+ output_full +:+ ".pdf"; "Filtering differences..."]
          ++ (if r2.1 then
                ["Graph saved as " +:+ output_filtered_full +:+ ".pdf"; "Process completed."]
              else [])
        else []).
Proof.
  intros g1 g2 r1 r2 out. subst out. rewrite run_draw_diff. cbv zeta. fold g1 r1.
  destruct r1 as [[] w1] eqn:Hr1; cbn [fst snd]; [|by rewrite app_nil_r].
  rewrite run_print, run_draw_diff. cbv zeta. cbn [env stdout render_calls].
  fold g2. subst r2. cbn [snd].
  destruct (render g2 output_filtered_full w1) as [[] w2]; cbn [fst snd];
    unfold print; cbn [fst snd stdout]; rewrite <- ?app_assoc; by rewrite ?app_nil_r.
Qed.

Lemma main_stdout old new output_full output_filtered_full s :
  let g1 := full_graph old new output_full in
  let g2 := filtered_graph old new output_filtered_full in
  let r1 := render g1 output_full (env s) in
  let r2 := render g2 output_filtered_full r1.2 in
  let out := main old new output_full output_filtered_full s in
  stdout out.2
  = stdout s ++ progress_lines
    ++ (if r1.1 then
          ["Graph saved as " +:+ output_full +:+ ".pdf"; "Filtering differences..."]
          ++ (if r2.1 then
                ["Graph saved as " +:+ output_filtered_full +:+ ".pdf"; "Process completed."]
              else [])
        else []).
Proof.
  intros g1 g2 r1 r2 out. subst out r2 r1 g2 g1.
  unfold main, full_graph, filtered_graph, main_status, main_nodes, resolved_edges.
  cbv zeta. repeat (rewrite run_print; cbn [env stdout render_calls]).
  rewrite (diff_returns _ _ (pipeline_diff_defined _ _)), run_lift_ret.
  destruct (diff_total _ _) as [st dl]. cbn [fst snd].
  generalize (modifica_dfg_result st). intros d1.
  generalize (create_dict_diff
                (unique_el (match_binary_names_labels (edges_origin_dest old)
                              (binary_names old) (labels old)))
                (unique_el (match_binary_names_labels (edges_origin_dest new)
                              (binary_names new) (labels new)))).
  intros nodes. repeat (rewrite run_print; cbn [env stdout render_calls]).
  match goal with
  | |- context [mbind_ (draw_diff _ _ _) _ ?s'] =>
      pose proof (draw_twice_stdout d1 (imp_edges_modified d1) nodes
                    output_full output_filtered_full s') as Hrun
  end.
  cbv zeta in Hrun. cbn [env stdout render_calls] in Hrun. rewrite Hrun.
  unfold progress_lines. by rewrite <- !app_assoc.
Qed.

Lemma imp_edges_modified_all_ok {K} `{EqDecision K} (d : dict K status) :
  (∀ kv, kv ∈ d → kv.2 = ok) → imp_edges_modified d = [].
Proof.
  unfold imp_edges_modified. generalize ([] : dict K status).
  induction d as [|[k v] d IH]; intros acc Hok; [done|]. simpl.
  rewrite decide_False by (intros Hne; apply Hne, (Hok (k, v)); left).
  apply IH. intros kv Hkv. apply Hok. by right.
Qed.

(** When both models have the same keys every status is [ok]. *)
Lemma main_status_all_ok old new :
  (∀ k, k ∈ dict_keys (from_list_edges_to_dict (resolved_edges old))
        ↔ k ∈ dict_keys (from_list_edges_to_dict (resolved_edges new))) →
  ∀ kv, kv ∈ main_status old new → kv.2 = ok.
Proof.
  intros Hsame [k v] Hin. simpl. unfold main_status in Hin.
  pose proof (diff_returns _ _ (pipeline_diff_defined (resolved_edges old)
                                  (resolved_edges new))) as Hrun.
  destruct (diff_total _ _) as [st dl]. simpl in Hin.
  destruct (diff_lookup _ _ _ _ Hrun) as (Hst & _ & Hwf & _).
  apply dict_get_wf in Hin; [|apply dict_of_pairs_wf].
  apply rekey_values in Hin as (k0 & Hk0 & _).
  apply (dict_get_wf _ _ _ Hwf) in Hk0. rewrite Hst in Hk0. unfold status_of in Hk0.
  destruct (dict_mem k0 (from_list_edges_to_dict (resolved_edges old))) eqn:Ho,
           (dict_mem k0 (from_list_edges_to_dict (resolved_edges new))) eqn:Hn;
    try done; try by injection Hk0.
  - apply dict_mem_true, Hsame, dict_mem_true in Ho. congruence.
  - apply dict_mem_true, Hsame, dict_mem_true in Hn. congruence.
Qed.
End MainMore.

(** X19. [main] ends normally or in a RenderError, never in another
    exception, and normally exactly when both render calls return.  It prints
    its seven progress lines, after a successful full render the name of that
    file and the announcement of the filtering, and after a successful
    filtered render the name of that file and the closing line. *)
Theorem main_outcome_and_output `{Outside} `{PyFloatOps} (old new : parsed)
    (output_full output_filtered_full : string) (s : state) :
  let g1 := full_graph old new output_full in
  let g2 := filtered_graph old new output_filtered_full in
  let r1 := render g1 output_full (env s) in
  let r2 := render g2 output_filtered_full r1.2 in
  let out := main old new output_full output_filtered_full s in
  (out.1 = ret () ∨ out.1 = raise RenderError)
  ∧ (out.1 = ret () ↔ r1.1 = true ∧ r2.1 = true)
  ∧ stdout out.2
    = stdout s ++ progress_lines
      ++ (if r1.1 then
            ["Graph saved as " +:+ output_full +:+ ".pdf"; "Filtering differences..."]
            ++ (if r2.1 then
                  ["Graph saved as " +:+ output_filtered_full +:+ ".pdf";
                   "Process completed."]
                else [])
          else []).
Proof.
  intros g1 g2 r1 r2 out.
  pose proof (main_run old new output_full output_filtered_full s) as Hrun.
  pose proof (main_stdout old new output_full output_filtered_full s) as Hout.
  cbv zeta in Hrun, Hout. fold g1 g2 r1 r2 out in Hrun, Hout.
  split_and!; [| |exact Hout].
  - destruct r1.1; [destruct r2.1|]; injection Hrun as -> _ _; auto.
  - destruct r1.1; [destruct r2.1|]; injection Hrun as -> _ _;
      split; try done; intros [? ?]; done.
Qed.

(** X20. When the two models give the same keys, the filtered diagram is
    the informational one: after a full render that returned, [main] hands
    the renderer, as its last call, the graph whose only statement is the
    node that says that there are no differences. *)
Theorem main_identical_models `{Outside} `{PyFloatOps} (old new : parsed)
    (output_full output_filtered_full : string) (s : state) :
  (∀ k, k ∈ dict_keys (from_list_edges_to_dict (resolved_edges old))
        ↔ k ∈ dict_keys (from_list_edges_to_dict (resolved_edges new))) →
  (render (full_graph old new output_full) output_full (env s)).1 = true →
  last (render_calls (main old new output_full output_filtered_full s).2)
  = Some (output_filtered_full,
          {| graph_name := output_filtered_full;
             body := [Node no_differences [("color", "white")]];
             graph_attr := [("ratio", "auto"); ("size", "100,100")] |}).
Proof.
  intros Hsame Hr1.
  pose proof (main_run old new output_full output_filtered_full s) as Hrun.
  cbv zeta in Hrun. rewrite Hr1 in Hrun. injection Hrun as _ _ ->.
  rewrite last_app. simpl. do 2 f_equal.
  unfold filtered_graph.
  rewrite (imp_edges_modified_all_ok _ (main_status_all_ok old new Hsame)).
  unfold diff_graph. simpl. by rewrite elements_empty.
Qed.

Lemma main_identical_models_witness :
  (render (full_graph sample_old sample_old "full") "full" (env empty_disk)).1 = true
  ∧ last (render_calls (main sample_old sample_old "full" "filtered" empty_disk).2)
    = Some ("filtered",
            {| graph_name := "filtered";
               body := [Node no_differences [("color", "white")]];
               graph_attr := [("ratio", "auto"); ("size", "100,100")] |}).
Proof.
  assert (Hr1 : (render (full_graph sample_old sample_old "full") "full"
                   (env empty_disk)).1 = true) by reflexivity.
  split; [exact Hr1|].
  apply (main_identical_models (H := sample_disk) (H0 := binary64_ops)
           sample_old sample_old "full" "filtered" empty_disk); [|exact Hr1].
  intros k. reflexivity.
Defined.

(** ** How the stages compose *)

Lemma labels_names_inv_no_space (binary_names labels : list string) (x v : string) :
  dict_get x (dict_of_pairs (zip binary_names (first_token <$> labels))) = Some v →
  no_space v = true.
Proof.
  rewrite dict_get_of_pairs. intros Hg. apply dict_get_elem_of in Hg.
  rewrite elem_of_reverse in Hg. apply list_elem_of_lookup in Hg as [i Hi].
  apply lookup_zip_with_Some in Hi as (y & t & [= -> ->] & _ & Ht).
  rewrite list_lookup_fmap in Ht. destruct (labels !! i) as [l|]; [|done].
  injection Ht as <-. apply first_token_no_space.
Qed.

Lemma labels_names_inv_hit (binary_names labels : list string) (x : string) (j : nat) :
  j < length labels → binary_names !! j = Some x →
  is_Some (dict_get x (dict_of_pairs (zip binary_names (first_token <$> labels)))).
Proof.
  intros Hj Hx. apply dict_get_is_Some, elem_of_dict_of_pairs_keys.
  destruct (lookup_lt_is_Some_2 labels j Hj) as [l Hl].
  unfold dict_keys. apply list_elem_of_fmap. exists (x, first_token l). split; [done|].
  apply list_elem_of_lookup. exists j. apply lookup_zip_with_Some.
  exists x, (first_token l). split_and!; [done..|]. by rewrite list_lookup_fmap, Hl.
Qed.

(** X21. When every endpoint of every edge has a label, the names the
    resolver gives hold no space, so the truncation to first tokens changes
    nothing: the keys of the directly-follows map are exactly the resolved
    edges. *)
Theorem resolved_edges_are_keys (edges_origin_dest : list edge)
    (binary_names labels : list string) :
  (∀ e, e ∈ edges_origin_dest →
     (∃ j, j < length labels ∧ binary_names !! j = Some e.1)
     ∧ (∃ j, j < length labels ∧ binary_names !! j = Some e.2)) →
  let resolved := match_binary_names_labels edges_origin_dest binary_names labels in
  (∀ r, r ∈ resolved → no_space r.1 = true ∧ no_space r.2 = true)
  ∧ (∀ k, k ∈ dict_keys (from_list_edges_to_dict resolved) ↔ k ∈ resolved).
Proof.
  intros Hhit resolved.
  assert (Hns : ∀ r, r ∈ resolved → no_space r.1 = true ∧ no_space r.2 = true).
  { intros r Hr. subst resolved. unfold match_binary_names_labels in Hr.
    apply list_elem_of_fmap in Hr as (e & -> & He). simpl.
    destruct (Hhit e He) as [(j1 & Hj1 & Hx1) (j2 & Hj2 & Hx2)].
    destruct (labels_names_inv_hit binary_names labels _ j1 Hj1 Hx1) as [v1 Hv1].
    destruct (labels_names_inv_hit binary_names labels _ j2 Hj2 Hx2) as [v2 Hv2].
    unfold dict_get_default. rewrite Hv1, Hv2. simpl.
    split; by eapply labels_names_inv_no_space. }
  split; [exact Hns|]. intros k. rewrite from_list_edges_to_dict_keys. split.
  - intros ([a b] & He & ->). destruct (Hns _ He) as [Ha Hb]. simpl in *.
    unfold edge_key. simpl. by rewrite !first_token_fixed.
  - intros Hk. exists k. split; [done|]. destruct (Hns _ Hk) as [Ha Hb].
    destruct k as [a b]. unfold edge_key. simpl in *. by rewrite !first_token_fixed.
Qed.

Lemma resolved_edges_are_keys_witness :
  let resolved := match_binary_names_labels [("a", "b"); ("b", "c")]
                    ["a"; "b"; "c"] ["A (2)"; "B (2)"; "C (1)"] in
  resolved = [("A", "B"); ("B", "C")]
  ∧ ("B", "C") ∈ dict_keys (from_list_edges_to_dict resolved).
Proof.
  intros resolved. split; [reflexivity|].
  apply (resolved_edges_are_keys [("a", "b"); ("b", "c")]
           ["a"; "b"; "c"] ["A (2)"; "B (2)"; "C (1)"]).
  - intros e He. apply elem_of_cons in He as [->|He];
      [|apply list_elem_of_singleton in He as ->]; simpl.
    + split; [exists 0 | exists 1]; split; (lia || reflexivity).
    + split; [exists 1 | exists 2]; split; (lia || reflexivity).
  - right. left.
Defined.

Lemma elem_of_dict_set {K V} `{EqDecision K} (k : K) (v : V) (d : dict K V) kv :
  kv ∈ dict_set k v d → kv = (k, v) ∨ kv ∈ d.
Proof.
  induction d as [|[k' v'] d IH]; simpl.
  - intros Hin. apply list_elem_of_singleton in Hin. by left.
  - destruct (decide (k = k')) as [->|Hne]; rewrite !elem_of_cons; [tauto|].
    intros [->|Hin]; [tauto|]. destruct (IH Hin); tauto.
Qed.

Lemma imp_edges_modified_no_ok {K} `{EqDecision K} (d : dict K status) kv :
  kv ∈ imp_edges_modified d → kv.2 ≠ ok.
Proof.
  unfold imp_edges_modified.
  cut (∀ acc : dict K status, (∀ x, x ∈ acc → x.2 ≠ ok) →
         ∀ x, x ∈ foldl (λ a p, if decide (p.2 ≠ ok) then dict_set p.1 p.2 a else a) acc d →
              x.2 ≠ ok).
  { intros Hgen. apply (Hgen []). intros x Hx. by apply elem_of_nil in Hx. }
  induction d as [|[k v] d IH]; intros acc Hacc x; [apply Hacc|]. simpl.
  apply IH. intros y Hy. destruct (decide (v ≠ ok)); [|by apply Hacc].
  apply elem_of_dict_set in Hy as [->|Hy]; [done | by apply Hacc].
Qed.

(** X22. The filtered diagram has no black edge: once the filter has taken
    the [ok] entries out, every edge the renderer draws is blue or red. *)
Theorem filtered_graph_has_no_black_edge (diff_dict : dict edge status)
    (dict_diff_nodes : dict_diff string) (name : string) :
  ∃ dot, draw_diff_graph (imp_edges_modified diff_dict) dict_diff_nodes name = ret dot
    ∧ ∀ t h attrs, Edge t h attrs ∈ body dot →
        dict_get "color" attrs = Some blue ∨ dict_get "color" attrs = Some "red".
Proof.
  exists (diff_graph (imp_edges_modified diff_dict) dict_diff_nodes name).
  split; [apply draw_diff_graph_returns|]. intros t h attrs Hin.
  unfold diff_graph in Hin. simpl in Hin. rewrite !elem_of_app in Hin.
  destruct Hin as [Hin|[Hin|Hin]].
  - apply list_elem_of_fmap in Hin as (a & [=] & _).
  - apply list_elem_of_fmap in Hin as (key & [= _ _ ->] & Hkey). simpl.
    unfold edge_color. destruct (bool_decide _ || bool_decide _); [by left|].
    right. rewrite decide_False; [done|]. intros Hok.
    by apply dict_get_elem_of, imp_edges_modified_no_ok in Hok.
  - destruct (decide (length (imp_edges_modified diff_dict) = 0));
      [|by apply elem_of_nil in Hin].
    by apply list_elem_of_singleton in Hin.
Qed.
